(** * Capture Open: cache-first synchronisation and derivative pipeline

    A shallow embedding of the Electron main-process code:
    - [Database]        src/electron/database.ts   (DatabaseManager)
    - [Sidecar]         src/electron/sidecar.ts    (SidecarManager)
    - [ThumbnailServer] src/electron/thumbnail-server.ts
    - [Store]           the project list store (class Store)
    - [Main]            the IPC handlers (start-watching and
                        processImageWithSidecar)

    Tables are finite maps keyed by their primary key.  The file system
    is a finite map from paths to regular files together with a journal
    of the mutating calls issued on it.  The libraries the code calls
    into (sharp, path, JSON, URL encoding, Date formatting) form the
    interface [Platform], which the development is parametric in.

    Every function that reads the clock or stamps a file takes the clock
    reading [now] as an argument.  Awaited calls run to completion one
    after the other; the pipelines that Promise.all starts for one batch
    run in list order, which the tables cannot tell from any other order
    (see [run_upsert_comm]). *)

From Stdlib Require Import ZArith String Ascii List Lia.
From stdpp Require Import base option list gmap strings pretty sorting.

Local Open Scope string_scope.
Local Open Scope list_scope.
Local Open Scope Z_scope.

(** ** The Metadata Cache: src/electron/database.ts *)

Module Database.

(** interface ImageRecord, one row of table [images].  Timestamps are the
    millisecond numbers of [fs.stat]; only their order is used. *)
Record ImageRecord := mkImage {
  id : string;
  project_id : string;
  file_path : string;
  file_name : string;
  file_size : Z;
  width : Z;
  height : Z;
  created_at : Z;
  modified_at : Z;
  rating : Z
}.

(** One row of table [projects]: id is the primary key, path is UNIQUE,
    cache_size has DEFAULT 0. *)
Record ProjectRow := mkProject {
  p_id : string;
  p_name : string;
  p_path : string;
  p_created_at : Z;
  p_last_opened : Z;
  p_cache_size : Z
}.

(** class DatabaseManager: the two tables the handlers write, and the
    private operation counter.  The FTS mirror and the tag tables are
    derived from / independent of [images] and are not modelled. *)
Record DatabaseManager := mkDb {
  projects : gmap string ProjectRow;
  images : gmap string ImageRecord;
  operationCount : Z
}.

Definition empty_db : DatabaseManager := mkDb ∅ ∅ 0.

(** checkOptimization: the pragma leaves the tables alone. *)
Definition checkOptimization (db : DatabaseManager) : DatabaseManager :=
  let n := operationCount db + 1 in
  if 100 <=? n
  then mkDb (projects db) (images db) 0
  else mkDb (projects db) (images db) n.

(** INSERT OR REPLACE INTO projects (id, name, path, created_at, last_opened)
    VALUES (?, ?, ?, COALESCE((SELECT created_at ... WHERE id = ?), ?), ?).
    The VALUES are computed first; REPLACE then deletes every row that
    collides on the primary key or on the UNIQUE path and inserts the new
    row, whose unlisted column cache_size takes its default. *)
Definition upsertProject (now : Z) (pid name path : string)
    (db : DatabaseManager) : DatabaseManager :=
  let created :=
    match projects db !! pid with
    | Some old => p_created_at old
    | None => now
    end in
  let survivors :=
    filter (λ kv : string * ProjectRow, p_path kv.2 ≠ path) (projects db) in
  mkDb (<[pid := mkProject pid name path created now 0]> survivors)
       (images db) (operationCount db).

(** The DO UPDATE SET list of upsertImage (rating through its CASE). *)
Definition update_single (stored excluded : ImageRecord) : ImageRecord :=
  mkImage (id stored) (project_id stored) (file_path stored)
          (file_name stored)
          (file_size excluded) (width excluded) (height excluded)
          (created_at stored) (modified_at excluded)
          (if modified_at stored <? modified_at excluded
           then rating excluded else rating stored).

(** The DO UPDATE SET list of upsertImagesBatch. *)
Definition update_batch (stored excluded : ImageRecord) : ImageRecord :=
  mkImage (id stored) (project_id stored) (file_path stored)
          (file_name stored)
          (file_size excluded) (width excluded) (height excluded)
          (created_at stored) (modified_at excluded)
          (rating stored).

(** INSERT ... ON CONFLICT(id) DO UPDATE SET ... WHERE
    excluded.modified_at > modified_at, for a given SET list. *)
Definition run_upsert (set : ImageRecord → ImageRecord → ImageRecord)
    (image : ImageRecord) (tbl : gmap string ImageRecord)
    : gmap string ImageRecord :=
  match tbl !! id image with
  | None => <[id image := image]> tbl
  | Some stored =>
      if modified_at stored <? modified_at image
      then <[id image := set stored image]> tbl
      else tbl
  end.

Definition upsertImage (image : ImageRecord) (db : DatabaseManager)
    : DatabaseManager :=
  checkOptimization
    (mkDb (projects db) (run_upsert update_single image (images db))
          (operationCount db)).

(** The transaction body is the for-loop over the records. *)
Definition upsertImagesBatch (records : list ImageRecord)
    (db : DatabaseManager) : DatabaseManager :=
  checkOptimization
    (mkDb (projects db)
          (foldl (λ tbl image, run_upsert update_batch image tbl)
                 (images db) records)
          (operationCount db)).

(** SELECT * FROM images WHERE project_id = ? ORDER BY modified_at DESC *)
Definition newer_first (a b : ImageRecord) : Prop :=
  modified_at b ≤ modified_at a.

#[export] Instance newer_first_dec a b : Decision (newer_first a b).
Proof. unfold newer_first. apply _. Defined.

Definition getImagesByProject (projectId : string) (db : DatabaseManager)
    : list ImageRecord :=
  merge_sort newer_first
    (filter (λ r, project_id r = projectId)
            ((map_to_list (images db)).*2)).

(** DELETE FROM images WHERE file_name = ? AND project_id = ?
    (issued by the background diff on the manager's connection). *)
Definition deleteImageByName (name projectId : string)
    (db : DatabaseManager) : DatabaseManager :=
  mkDb (projects db)
       (filter (λ kv : string * ImageRecord,
                  ¬ (file_name kv.2 = name ∧ project_id kv.2 = projectId))
               (images db))
       (operationCount db).

(** cleanupOrphaned(), at clock reading [now]: DELETE FROM images WHERE
    id NOT IN (SELECT DISTINCT image_id FROM image_tags) AND rating = 0
    AND modified_at < ?, with the bound thirty days back; the result is
    [changes], the number of rows deleted.  [tagged] is what the subquery
    yields: image_tags is declared in the schema and no statement of the
    class writes it. *)
Definition thirtyDays : Z := 30 * 24 * 60 * 60 * 1000.

Definition orphaned (now : Z) (tagged : gset string)
    (kv : string * ImageRecord) : Prop :=
  let row := kv.2 in
  (id row ∉ tagged) ∧ rating row = 0 ∧ modified_at row < now - thirtyDays.

#[export] Instance orphaned_dec now tagged kv :
  Decision (orphaned now tagged kv).
Proof. unfold orphaned. apply _. Defined.

Definition cleanupOrphaned (now : Z) (tagged : gset string)
    (db : DatabaseManager) : nat * DatabaseManager :=
  (size (filter (orphaned now tagged) (images db)),
   mkDb (projects db)
        (filter (λ kv, ¬ orphaned now tagged kv) (images db))
        (operationCount db)).

End Database.

(** ** The platform the main process runs on *)

(** A regular file: its bytes and the two [fs.stat] times the code reads. *)
Record File := mkFile {
  f_data : string;
  f_mtime : Z;
  f_birthtime : Z
}.

Definition f_size (f : File) : Z := Z.of_nat (String.length (f_data f)).

(** The mutating calls a program can issue on the file system.  [EvWrite p]
    is any call that opens [p] itself for writing (sharp's toFile,
    fs.writeFile); [EvRename] is fs.rename / fs.move. *)
Inductive FsEvent :=
| EvWrite (target : string)
| EvRename (source target : string)
| EvRemove (target : string)
| EvEnsureDir (dir : string).

(** The file system: the regular files by path, and the journal of the
    mutating calls issued so far, oldest first. *)
Record FileSystem := mkFs {
  files : gmap string File;
  journal : list FsEvent
}.

(** What [sharp(input).metadata()] resolves to. *)
Record Metadata := mkMetadata {
  md_width : option Z;
  md_height : option Z
}.

(** The three sharp pipelines of sidecar.ts. *)
Inductive Pipeline :=
| ThumbWebp        (* resize(256, 256, cover, centre).webp(75, effort 4) *)
| StandardJpeg (quality : Z)
                   (* resize(1600, 1600, inside, withoutEnlargement)
                      .jpeg(quality, progressive, mozjpeg) *)
| FullJpeg.        (* jpeg(92, progressive, mozjpeg), source resolution *)

(** How a [toFile] call can end: the encoded bytes are on disk; the input
    is rejected before the output is opened; or the call fails after the
    output was opened, with [partial] written to it so far. *)
Inductive ToFileOutcome :=
| Written (data : string)
| InputError
| OutputError (partial : string).

(** The per-image JSON sidecar, as far as the code reads it. *)
Record SidecarMeta := mkSidecarMeta {
  sm_rating : option Z;
  sm_tags : option (list string)
}.

(** Library functions the code calls; the development holds for all of
    them.  [None] stands for a thrown exception. *)
Class Platform := {
  path_join : string → string → string;
  path_basename : string → string;
  sharp_metadata : string → option Metadata;
  sharp_toFile : Pipeline → string → ToFileOutcome;
  readJSON : string → option SidecarMeta;
  encodeURIComponent : string → string;
  toISOString : Z → string
}.

(** A JavaScript computation on the file system: it returns or throws, and
    its effects stay in either case. *)
Inductive Result (A : Type) :=
| Ok (a : A)
| Throw (err : string).
Arguments Ok {A} a.
Arguments Throw {A} err.

Definition Io (A : Type) : Type := FileSystem → Result A * FileSystem.

Definition io_ret {A} (a : A) : Io A := λ fs, (Ok a, fs).
Definition io_throw {A} (err : string) : Io A := λ fs, (Throw err, fs).
Definition io_bind {A B} (m : Io A) (k : A → Io B) : Io B :=
  λ fs, match m fs with
        | (Ok a, fs') => k a fs'
        | (Throw e, fs') => (Throw e, fs')
        end.

#[export] Instance Io_ret : MRet Io := @io_ret.
#[export] Instance Io_bind : MBind Io := λ A B k m, io_bind m k.

Module Fs.

(** fs.pathExists *)
Definition pathExists (p : string) : Io bool :=
  λ fs, (Ok (bool_decide (is_Some (files fs !! p))), fs).

(** fs.stat: throws on a missing path. *)
Definition stat (p : string) : Io File :=
  λ fs, match files fs !! p with
        | Some f => (Ok f, fs)
        | None => (Throw "ENOENT", fs)
        end.

(** fs.ensureDir *)
Definition ensureDir (d : string) : Io unit :=
  λ fs, (Ok tt, mkFs (files fs) (journal fs ++ [EvEnsureDir d])).

(** Opening [p] for writing at time [now] and leaving [data] in it. *)
Definition put (now : Z) (p data : string) (fs : FileSystem) : FileSystem :=
  let born := match files fs !! p with
              | Some old => f_birthtime old
              | None => now
              end in
  mkFs (<[p := mkFile data now born]> (files fs))
       (journal fs ++ [EvWrite p]).

(** fs.writeFile *)
Definition writeFile (now : Z) (p data : string) : Io unit :=
  λ fs, (Ok tt, put now p data fs).

(** fs.readFile *)
Definition readFile (p : string) : Io string :=
  λ fs, match files fs !! p with
        | Some f => (Ok (f_data f), fs)
        | None => (Throw "ENOENT", fs)
        end.

(** fs.remove: no error when the path is missing. *)
Definition remove (p : string) : Io unit :=
  λ fs, (Ok tt, mkFs (delete p (files fs)) (journal fs ++ [EvRemove p])).

End Fs.

Section WithPlatform.
Context `{Platform}.

(** sharp(input).metadata() *)
Definition sharp_read_metadata (input : string) : Io Metadata :=
  data ← Fs.readFile input;
  match sharp_metadata data with
  | Some md => io_ret md
  | None => io_throw "unsupported image format"
  end.

(** sharp(input).<pipeline>.toFile(output): the encoder writes to
    [output] itself. *)
Definition sharp_to_file (now : Z) (pl : Pipeline) (input output : string)
    : Io unit :=
  data ← Fs.readFile input;
  match sharp_toFile pl data with
  | Written out => Fs.writeFile now output out
  | InputError => io_throw "unsupported image format"
  | OutputError partial =>
      Fs.writeFile now output partial;; io_throw "write failed"
  end.

End WithPlatform.

(** fs.writeJSON's serialisation of the sidecar object. *)
Class JsonWriter := {
  writeJSON : SidecarMeta → string
}.

(** ** JavaScript string functions *)

Module Js.

(** [s] with the prefix [pat] taken off, when it starts with [pat]. *)
Fixpoint stripPrefix (pat s : list ascii) : option (list ascii) :=
  match pat, s with
  | [], _ => Some s
  | a :: pat', b :: s' =>
      if Ascii.eqb a b then stripPrefix pat' s' else None
  | _ :: _, [] => None
  end.

Fixpoint removeFirst (pat s : list ascii) : list ascii :=
  match stripPrefix pat s with
  | Some rest => rest
  | None =>
      match s with
      | [] => []
      | c :: s' => c :: removeFirst pat s'
      end
  end.

(** s.replace(pat, ''), with a string pattern: the first occurrence of
    [pat] is taken out, [s] is returned as it is when there is none. *)
Definition replaceFirst (pat s : string) : string :=
  string_of_list_ascii
    (removeFirst (list_ascii_of_string pat) (list_ascii_of_string s)).

(** photos.findIndex(pred): -1 when no element satisfies [pred]. *)
Fixpoint findIndex {A} (pred : A → bool) (l : list A) : Z :=
  match l with
  | [] => -1
  | x :: rest =>
      if pred x then 0
      else let i := findIndex pred rest in
           if i <? 0 then -1 else i + 1
  end.

End Js.

(** ** The Derivative Store: src/electron/sidecar.ts *)

Module Sidecar.

Record SidecarPaths := mkPaths {
  root : string;
  thumbnails : string;
  previews : string;
  metadata : string
}.

Record SidecarManager := mkManager {
  folderPath : string;
  sidecarRoot : string;
  paths : SidecarPaths
}.

(** The three derivative tiers. *)
Inductive Tier := Thumbnail | StandardPreview | FullPreview.

Section WithPlatform.
Context `{Platform}.

(** constructor(folderPath) *)
Definition new (folder : string) : SidecarManager :=
  let sroot := path_join folder ".capture-open" in
  mkManager folder sroot
    (mkPaths sroot
             (path_join sroot "thumbnails")
             (path_join sroot "previews")
             (path_join sroot "metadata")).

(** initialize(): the three directories and the .gitignore; the
    win32 attrib call touches no file the code reads. *)
Definition initialize (now : Z) (m : SidecarManager) : Io unit :=
  Fs.ensureDir (thumbnails (paths m));;
  Fs.ensureDir (previews (paths m));;
  Fs.ensureDir (metadata (paths m));;
  let gitignorePath := path_join (sidecarRoot m) ".gitignore" in
  present ← Fs.pathExists gitignorePath;
  if negb present
  then Fs.writeFile now gitignorePath
         ("thumbnails/" ++ String "010" "previews/"
            ++ String "010" EmptyString)%string
  else mret tt.

Definition getThumbnailPath (m : SidecarManager) (imageName : string) :=
  path_join (thumbnails (paths m)) (imageName ++ ".thumb.webp")%string.

Definition getPreviewPath (m : SidecarManager) (imageName : string) :=
  path_join (previews (paths m)) (imageName ++ ".preview.jpg")%string.

Definition getStandardPreviewPath (m : SidecarManager) (imageName : string) :=
  path_join (previews (paths m)) (imageName ++ ".standard.jpg")%string.

Definition getFullSizePreviewPath (m : SidecarManager) (imageName : string) :=
  path_join (previews (paths m)) (imageName ++ ".full.jpg")%string.

Definition getMetadataPath (m : SidecarManager) (imageName : string) :=
  path_join (metadata (paths m)) (imageName ++ ".json")%string.

(** The staleness test of the three generators:
      if (await fs.pathExists(d)) {
        const imageStat = await fs.stat(imagePath);
        const dStat = await fs.stat(d);
        if (dStat.mtime >= imageStat.mtime) return d;
      }
    [true] is the early return. *)
Definition upToDate (derivative imagePath : string) : Io bool :=
  present ← Fs.pathExists derivative;
  if (present : bool)
  then imageStat ← Fs.stat imagePath;
       dStat ← Fs.stat derivative;
       mret (f_mtime imageStat <=? f_mtime dStat)
  else mret false.

(** Priority 1: thumbnail *)
Definition generateThumbnail (now : Z) (m : SidecarManager)
    (imagePath imageName : string) : Io string :=
  let thumbPath := getThumbnailPath m imageName in
  fresh ← upToDate thumbPath imagePath;
  if (fresh : bool) then mret thumbPath
  else sharp_to_file now ThumbWebp imagePath thumbPath;;
       mret thumbPath.

Definition maxDimensionOf (md : Metadata) : Z :=
  Z.max (default 0 (md_width md)) (default 0 (md_height md)).

(** Priority 2: standard preview *)
Definition generateStandardPreview (now : Z) (m : SidecarManager)
    (imagePath imageName : string) : Io string :=
  let previewPath := getStandardPreviewPath m imageName in
  fresh ← upToDate previewPath imagePath;
  if (fresh : bool) then mret previewPath
  else md ← sharp_read_metadata imagePath;
       let maxDimension := maxDimensionOf md in
       let quality := if maxDimension <=? 1600 then 92 else 80 in
       sharp_to_file now (StandardJpeg quality) imagePath previewPath;;
       mret previewPath.

(** Priority 3: full-size preview; [None] is the [null] that tells
    the caller to use the standard preview. *)
Definition generateFullSizePreview (now : Z) (m : SidecarManager)
    (imagePath imageName : string) : Io (option string) :=
  md ← sharp_read_metadata imagePath;
  let maxDimension := maxDimensionOf md in
  if maxDimension <=? 1600 then mret None
  else
    let previewPath := getFullSizePreviewPath m imageName in
    fresh ← upToDate previewPath imagePath;
    if (fresh : bool) then mret (Some previewPath)
    else sharp_to_file now FullJpeg imagePath previewPath;;
         mret (Some previewPath).

(** loadMetadata *)
Definition loadMetadata (m : SidecarManager) (imageName : string)
    : Io (option SidecarMeta) :=
  let metadataPath := getMetadataPath m imageName in
  present ← Fs.pathExists metadataPath;
  if (present : bool)
  then data ← Fs.readFile metadataPath;
       match readJSON data with
       | Some meta => mret (Some meta)
       | None => io_throw "invalid JSON"
       end
  else mret None.

(** The final path of a tier's derivative, and the generator of a
    tier with the three return types aligned. *)
Definition derivativePath (t : Tier) (m : SidecarManager)
    (imageName : string) : string :=
  match t with
  | Thumbnail => getThumbnailPath m imageName
  | StandardPreview => getStandardPreviewPath m imageName
  | FullPreview => getFullSizePreviewPath m imageName
  end.

Definition generate (t : Tier) (now : Z) (m : SidecarManager)
    (imagePath imageName : string) : Io (option string) :=
  match t with
  | Thumbnail =>
      p ← generateThumbnail now m imagePath imageName; mret (Some p)
  | StandardPreview =>
      p ← generateStandardPreview now m imagePath imageName; mret (Some p)
  | FullPreview => generateFullSizePreview now m imagePath imageName
  end.


(** The source names cleanupOrphaned infers from derivative names. *)
Definition inferredThumbSource (thumb : string) : string :=
  Js.replaceFirst ".thumb.webp" thumb.

Definition inferredPreviewSource (preview : string) : string :=
  Js.replaceFirst ".preview.jpg"
    (Js.replaceFirst ".full.jpg"
       (Js.replaceFirst ".standard.jpg" preview)).

(** One of the two loops of cleanupOrphaned over a directory listing. *)
Fixpoint removeOrphans (dir : string) (infer : string → string)
    (imageFiles entries : list string) (cleanedCount : Z) : Io Z :=
  match entries with
  | [] => mret cleanedCount
  | entry :: rest =>
      if decide (infer entry ∈ imageFiles)
      then removeOrphans dir infer imageFiles rest cleanedCount
      else Fs.remove (path_join dir entry);;
           removeOrphans dir infer imageFiles rest (cleanedCount + 1)
  end.

(** cleanupOrphaned(); [imageFiles], [thumbFiles] and [previewFiles] are
    what the three fs.readdir calls resolve to ([imageFiles] is the whole
    listing of the folder, not only its images). *)
Definition cleanupOrphaned (imageFiles thumbFiles previewFiles : list string)
    (m : SidecarManager) : Io Z :=
  n ← removeOrphans (thumbnails (paths m)) inferredThumbSource
        imageFiles thumbFiles 0;
  removeOrphans (previews (paths m)) inferredPreviewSource
    imageFiles previewFiles n.

End WithPlatform.

End Sidecar.

(** ** The Derivative Server: src/electron/thumbnail-server.ts *)

Module ThumbnailServer.

Record ThumbnailServer := mkServer {
  port : Z;
  sidecarManagers : gmap string Sidecar.SidecarManager
}.

(** What a handler leaves on [res]: status, headers set by the handler,
    and the body (text sent, or the bytes of the streamed file).  The
    handlers' catch blocks (status 500) are not reached: fs.pathExists
    resolves to false instead of rejecting. *)
Record Response := mkResponse {
  status : Z;
  headers : list (string * string);
  body : string
}.

Definition notFound (msg : string) : Response := mkResponse 404 [] msg.

(** setHeader x2; fs.createReadStream(p).pipe(res) *)
Definition streamFile (fs : FileSystem) (p : string) : Response :=
  mkResponse 200
    [("Cache-Control", "public, max-age=31536000");
     ("Content-Type", "image/jpeg")]
    (default EmptyString (f_data <$> files fs !! p)).

Definition pathExists (fs : FileSystem) (p : string) : bool :=
  bool_decide (is_Some (files fs !! p)).

Definition registerSidecarManager (projectId : string)
    (m : Sidecar.SidecarManager) (srv : ThumbnailServer) : ThumbnailServer :=
  mkServer (port srv) (<[projectId := m]> (sidecarManagers srv)).

Definition unregisterSidecarManager (projectId : string)
    (srv : ThumbnailServer) : ThumbnailServer :=
  mkServer (port srv) (delete projectId (sidecarManagers srv)).

Definition getUrl (srv : ThumbnailServer) : string :=
  ("http://localhost:" ++ pretty (port srv))%string.

(** How this.app.listen(port) ends: the 'listening' event, or the
    'error' event with its code. *)
Inductive ListenOutcome :=
| Listening
| AddrInUse
| ListenFailed (code : string).

(** tryPort(port) of start(): [listen] tells how each port answers,
    [fuel] bounds the number of ports tried ([None] when it runs out
    with the promise still pending). *)
Fixpoint tryPort (fuel : nat) (listen : Z → ListenOutcome) (p : Z)
    (srv : ThumbnailServer) : option (Result Z * ThumbnailServer) :=
  match fuel with
  | O => None
  | S fuel' =>
      match listen p with
      | Listening => Some (Ok p, mkServer p (sidecarManagers srv))
      | AddrInUse => tryPort fuel' listen (p + 1) srv
      | ListenFailed code => Some (Throw code, srv)
      end
  end.

(** start() *)
Definition start (fuel : nat) (listen : Z → ListenOutcome)
    (srv : ThumbnailServer) : option (Result Z * ThumbnailServer) :=
  tryPort fuel listen 45678 srv.

Section WithPlatform.
Context `{Platform}.

(** GET /thumb/:projectId/:filename *)
Definition getThumb (srv : ThumbnailServer) (fs : FileSystem)
    (projectId filename : string) : Response :=
  match sidecarManagers srv !! projectId with
  | None => notFound "Project not found"
  | Some manager =>
      let thumbPath := Sidecar.getThumbnailPath manager filename in
      if negb (pathExists fs thumbPath)
      then notFound "Thumbnail not found"
      else streamFile fs thumbPath
  end.

(** GET /preview/:projectId/:filename *)
Definition getPreview (srv : ThumbnailServer) (fs : FileSystem)
    (projectId filename : string) : Response :=
  match sidecarManagers srv !! projectId with
  | None => notFound "Project not found"
  | Some manager =>
      let previewPath := Sidecar.getPreviewPath manager filename in
      if negb (pathExists fs previewPath)
      then notFound "Preview not found"
      else streamFile fs previewPath
  end.

(** GET /standard/:projectId/:filename *)
Definition getStandard (srv : ThumbnailServer) (fs : FileSystem)
    (projectId filename : string) : Response :=
  match sidecarManagers srv !! projectId with
  | None => notFound "Project not found"
  | Some manager =>
      let standardPath := Sidecar.getStandardPreviewPath manager filename in
      if negb (pathExists fs standardPath)
      then notFound "Standard preview not found"
      else streamFile fs standardPath
  end.


End WithPlatform.

End ThumbnailServer.

(** ** The project list: class Store *)

Module Store.

Record Project := mkProject {
  id : string;
  name : string;
  path : string;
  createdAt : string
}.

(** The in-memory [data.projects]; every change is also written to
    projects.json, which nothing else here reads. *)
Record Store := mkStore {
  projects : list Project
}.

Section WithPlatform.
Context `{Platform}.

(** addProject(projectPath) at clock reading [now]:
    id is the template string proj-${Date.now()}. *)
Definition addProject (now : Z) (projectPath : string) (st : Store)
    : Project * Store :=
  let name := path_basename projectPath in
  let id := ("proj-" ++ pretty now)%string in
  let newProject := mkProject id name projectPath (toISOString now) in
  (newProject, mkStore (projects st ++ [newProject])).

Definition removeProject (pid : string) (st : Store) : Store :=
  mkStore (filter (λ p, id p ≠ pid) (projects st)).

End WithPlatform.

End Store.

(** ** The Reconciliation Engine: the main-process IPC handlers *)

Module Main.

(** folderPath.replace(/[\\/:]/g, '_') *)
Definition sanitizeChar (c : ascii) : ascii :=
  if bool_decide (c = "\"%char ∨ c = "/"%char ∨ c = ":"%char)
  then "_"%char else c.

Fixpoint projectIdOf (folderPath : string) : string :=
  match folderPath with
  | EmptyString => EmptyString
  | String c rest => String (sanitizeChar c) (projectIdOf rest)
  end.

(** fullPath.replace(/\\/g, '/') *)
Fixpoint forwardSlashes (p : string) : string :=
  match p with
  | EmptyString => EmptyString
  | String c rest =>
      String (if bool_decide (c = "\"%char) then "/"%char else c)
             (forwardSlashes rest)
  end.

(** /\.(jpg|jpeg|png|webp|avif)$/i.test(f): the i flag folds the ASCII
    letters only, and $ is the end of the string. *)
Definition lowerChar (c : ascii) : ascii :=
  let n := nat_of_ascii c in
  if ((65 <=? n) && (n <=? 90))%nat then ascii_of_nat (n + 32) else c.

Fixpoint lowerCase (s : string) : string :=
  match s with
  | EmptyString => EmptyString
  | String c rest => String (lowerChar c) (lowerCase rest)
  end.

Definition endsWith (suffix s : string) : bool :=
  let n := String.length s in
  let k := String.length suffix in
  ((k <=? n)%nat && String.eqb (substring (n - k) k s) suffix)%bool.

Definition imageExtensions : list string :=
  [".jpg"; ".jpeg"; ".png"; ".webp"; ".avif"]%string.

Definition isImageFile (f : string) : bool :=
  existsb (λ ext, endsWith ext (lowerCase f)) imageExtensions.

(** The object sent to the renderer.  The cached records carry no
    [date]; the fallback record of the catch block carries neither
    [standardPreview] nor [fullPreview]. *)
Record DisplayRecord := mkDisplay {
  d_id : string;
  d_name : string;
  d_path : string;
  d_thumbnail : string;
  d_standardPreview : option string;
  d_fullPreview : option string;
  d_url : string;
  d_width : Z;
  d_height : Z;
  d_rating : Z;
  d_tags : list string;
  d_date : option string
}.

(** The fallback record is the one without tier URLs. *)
Definition degraded (r : DisplayRecord) : bool :=
  bool_decide (d_standardPreview r = None).

(** mainWindow.webContents.send(channel, payload) *)
Inductive Message :=
| FileAdded (img : DisplayRecord)
| FileRemoved (name projectId : string).

(** Callbacks queued with setImmediate. *)
Inductive Task :=
| BackgroundDiff (folderPath projectId : string)
                 (sidecarManager : Sidecar.SidecarManager)
                 (cachedImages : list DisplayRecord)
| GeneratePreviews (sidecarManager : Sidecar.SidecarManager)
                   (fullPath fileName : string).

(** The chokidar watcher: what its 'add' handler closes over. *)
Record Watcher := mkWatcher {
  w_folderPath : string;
  w_projectId : string;
  w_sidecarManager : Sidecar.SidecarManager
}.

(** The module-level state of the main process, and the disk.
    [mainWindow] holds the messages sent to the renderer, oldest
    first, when there is a window. *)
Record World := mkWorld {
  fs : FileSystem;
  dbManager : Database.DatabaseManager;
  thumbnailServer : ThumbnailServer.ThumbnailServer;
  sidecarManagers : gmap string Sidecar.SidecarManager;
  store : Store.Store;
  mainWindow : option (list Message);
  watcher : option Watcher;
  immediates : list Task
}.

Definition with_fs (x : FileSystem) (w : World) : World :=
  mkWorld x (dbManager w) (thumbnailServer w) (sidecarManagers w)
          (store w) (mainWindow w) (watcher w) (immediates w).

Definition with_db (x : Database.DatabaseManager) (w : World) : World :=
  mkWorld (fs w) x (thumbnailServer w) (sidecarManagers w)
          (store w) (mainWindow w) (watcher w) (immediates w).

Definition with_watcher (x : option Watcher) (w : World) : World :=
  mkWorld (fs w) (dbManager w) (thumbnailServer w) (sidecarManagers w)
          (store w) (mainWindow w) x (immediates w).

(** setImmediate(callback) *)
Definition setImmediate (t : Task) (w : World) : World :=
  mkWorld (fs w) (dbManager w) (thumbnailServer w) (sidecarManagers w)
          (store w) (mainWindow w) (watcher w) (immediates w ++ [t]).

(** mainWindow?.webContents.send(...) *)
Definition send (msg : Message) (w : World) : World :=
  mkWorld (fs w) (dbManager w) (thumbnailServer w) (sidecarManagers w)
          (store w) ((λ sent, (sent ++ [msg])%list) <$> mainWindow w)
          (watcher w) (immediates w).

Section WithPlatform.
Context `{Platform}.

Definition tierUrl (serverUrl tier projectId fileName : string) : string :=
  (serverUrl ++ "/" ++ tier ++ "/" ++ projectId ++ "/"
     ++ encodeURIComponent fileName)%string.

(** The try block of processImageWithSidecar up to the upsert's
    arguments: everything that reads or writes the disk. *)
Definition prepareImage (now : Z) (fullPath fileName projectId : string)
    (sidecarManager : Sidecar.SidecarManager) (serverUrl : string)
    : Io (DisplayRecord * Database.ImageRecord) :=
  Sidecar.generateThumbnail now sidecarManager fullPath fileName;;
  metadata ← sharp_read_metadata fullPath;
  existingMeta ← Sidecar.loadMetadata sidecarManager fileName;
  dateStat ← Fs.stat fullPath;
  let w := default 0 (md_width metadata) in
  let h := default 0 (md_height metadata) in
  let rating := default 0 (existingMeta ≫= sm_rating) in
  let imageData :=
    mkDisplay fullPath fileName fullPath
      (tierUrl serverUrl "thumb" projectId fileName)
      (Some (tierUrl serverUrl "standard" projectId fileName))
      (Some (tierUrl serverUrl "full" projectId fileName))
      (tierUrl serverUrl "preview" projectId fileName)
      w h rating
      (default [] (existingMeta ≫= sm_tags))
      (Some (toISOString (f_mtime dateStat))) in
  sizeStat ← Fs.stat fullPath;
  birthStat ← Fs.stat fullPath;
  mtimeStat ← Fs.stat fullPath;
  mret (imageData,
        Database.mkImage fullPath projectId fullPath fileName
          (f_size sizeStat) w h
          (f_birthtime birthStat) (f_mtime mtimeStat) rating).

(** The record of the catch block. *)
Definition fallbackRecord (now : Z) (fullPath fileName : string)
    : DisplayRecord :=
  let fileUrl := ("file:///" ++ forwardSlashes fullPath)%string in
  mkDisplay fullPath fileName fullPath fileUrl None None fileUrl
            0 0 0 [] (Some (toISOString now)).

Definition processImageWithSidecar (now : Z)
    (folderPath fileName projectId : string)
    (sidecarManager : Sidecar.SidecarManager) (w : World)
    : DisplayRecord * World :=
  let fullPath := path_join folderPath fileName in
  let serverUrl := ThumbnailServer.getUrl (thumbnailServer w) in
  match prepareImage now fullPath fileName projectId sidecarManager
                     serverUrl (fs w) with
  | (Ok (imageData, record), fs') =>
      (imageData,
       setImmediate (GeneratePreviews sidecarManager fullPath fileName)
         (with_db (Database.upsertImage record (dbManager w))
            (with_fs fs' w)))
  | (Throw _, fs') =>
      (fallbackRecord now fullPath fileName, with_fs fs' w)
  end.

(** The setImmediate callback of processImageWithSidecar; its catch
    only logs. *)
Definition generatePreviews (now : Z)
    (sidecarManager : Sidecar.SidecarManager)
    (fullPath fileName : string) (w : World) : World :=
  let body :=
    Sidecar.generateStandardPreview now sidecarManager fullPath fileName;;
    Sidecar.generateFullSizePreview now sidecarManager fullPath fileName in
  with_fs (body (fs w)).2 w.

(** batch.map(file => processImageWithSidecar(...)) under Promise.all,
    run here in list order; the results keep the order of the batch. *)
Fixpoint processBatch (now : Z) (folderPath projectId : string)
    (sidecarManager : Sidecar.SidecarManager) (batch : list string)
    (w : World) : list DisplayRecord * World :=
  match batch with
  | [] => ([], w)
  | file :: rest =>
      let '(imgData, w1) :=
        processImageWithSidecar now folderPath file projectId
                                sidecarManager w in
      let '(others, w2) :=
        processBatch now folderPath projectId sidecarManager rest w1 in
      (imgData :: others, w2)
  end.

Definition batchSize : nat := 10.

(** for (let i = 0; i < newFiles.length; i += batchSize) { ... } *)
Fixpoint batchLoop (fuel : nat) (now : Z) (folderPath projectId : string)
    (sidecarManager : Sidecar.SidecarManager) (newFiles : list string)
    (i : nat) (w : World) : World :=
  match fuel with
  | O => w
  | S fuel' =>
      if (i <? length newFiles)%nat
      then
        let batch := take batchSize (drop i newFiles) in
        let '(batchResults, w1) :=
          processBatch now folderPath projectId sidecarManager batch w in
        let w2 := foldl (λ acc imgData, send (FileAdded imgData) acc)
                        w1 batchResults in
        batchLoop fuel' now folderPath projectId sidecarManager
                  newFiles (i + batchSize) w2
      else w
  end.

(** [...new Set(names)]: first occurrences, in order. *)
Fixpoint distinct (names : list string) : list string :=
  match names with
  | [] => []
  | n :: rest => n :: filter (λ x, x ≠ n) (distinct rest)
  end.

(** The setImmediate callback of start-watching; [files] is what
    fs.readdir(folderPath) resolves to. *)
Definition backgroundDiff (now : Z) (files : list string)
    (folderPath projectId : string)
    (sidecarManager : Sidecar.SidecarManager)
    (cachedImages : list DisplayRecord) (w : World) : World :=
  let imageFiles := filter (λ f, isImageFile f = true) files in
  let existingSet := d_name <$> cachedImages in
  let newFiles := filter (λ f, f ∉ existingSet) imageFiles in
  let w1 := batchLoop (length newFiles) now folderPath projectId
                      sidecarManager newFiles 0 w in
  let dbNames := distinct (d_name <$> cachedImages) in
  let deletedFiles := filter (λ name, name ∉ imageFiles) dbNames in
  foldl (λ acc delName,
           send (FileRemoved delName projectId)
             (with_db (Database.deleteImageByName delName projectId
                         (dbManager acc)) acc))
        w1 deletedFiles.

(** The cached list start-watching returns. *)
Definition cachedImagesOf (serverUrl projectId : string)
    (db : Database.DatabaseManager) : list DisplayRecord :=
  (λ img,
     mkDisplay (Database.id img) (Database.file_name img)
       (Database.file_path img)
       (tierUrl serverUrl "thumb" projectId (Database.file_name img))
       (Some (tierUrl serverUrl "standard" projectId (Database.file_name img)))
       (Some (tierUrl serverUrl "full" projectId (Database.file_name img)))
       (tierUrl serverUrl "preview" projectId (Database.file_name img))
       (Database.width img) (Database.height img) (Database.rating img)
       [] None)
  <$> Database.getImagesByProject projectId db.

(** ipcMain.handle('start-watching', ...) at clock reading [now]. *)
Definition startWatching (now : Z) (folderPath : string) (w : World)
    : list DisplayRecord * World :=
  let w0 := with_watcher None w in
  let projectId := projectIdOf folderPath in
  let '(sidecarManager, w1) :=
    match sidecarManagers w0 !! projectId with
    | Some m => (m, w0)
    | None =>
        let m := Sidecar.new folderPath in
        let fs' := (Sidecar.initialize now m (fs w0)).2 in
        (m, mkWorld fs' (dbManager w0)
              (ThumbnailServer.registerSidecarManager projectId m
                 (thumbnailServer w0))
              (<[projectId := m]> (sidecarManagers w0))
              (store w0) (mainWindow w0) (watcher w0) (immediates w0))
    end in
  let projectName := path_basename folderPath in
  let w2 := with_db (Database.upsertProject now projectId projectName
                       folderPath (dbManager w1)) w1 in
  let cachedImages :=
    cachedImagesOf (ThumbnailServer.getUrl (thumbnailServer w2))
                   projectId (dbManager w2) in
  let w3 := setImmediate
              (BackgroundDiff folderPath projectId sidecarManager
                              cachedImages) w2 in
  (cachedImages,
   with_watcher (Some (mkWatcher folderPath projectId sidecarManager)) w3).

(** watcher.on('add', filePath => ...) *)
Definition onAdd (now : Z) (filePath : string) (w : World) : World :=
  match watcher w with
  | None => w
  | Some wt =>
      let fileName := path_basename filePath in
      if isImageFile fileName
      then
        let '(imageData, w1) :=
          processImageWithSidecar now (w_folderPath wt) fileName
            (w_projectId wt) (w_sidecarManager wt) w in
        send (FileAdded imageData) w1
      else w
  end.

(** ipcMain.handle('add-project', ...) *)
Definition addProject (now : Z) (folderPath : string) (w : World)
    : Store.Project * World :=
  let '(p, st) := Store.addProject now folderPath (store w) in
  (p, mkWorld (fs w) (dbManager w) (thumbnailServer w)
        (sidecarManagers w) st (mainWindow w) (watcher w)
        (immediates w)).

End WithPlatform.

End Main.

(** ** The renderer: src/App.tsx and src/components/Editor.tsx *)

Module Renderer.

(** The setAllPhotos update of the 'file-added' listener. *)
Definition onFileAdded (prev : list Main.DisplayRecord)
    (newPhoto : Main.DisplayRecord) : list Main.DisplayRecord :=
  if existsb (λ p, String.eqb (Main.d_name p) (Main.d_name newPhoto)) prev
  then prev
  else prev ++ [newPhoto].

(** The setAllPhotos update of the 'file-removed' listener. *)
Definition onFileRemoved (prev : list Main.DisplayRecord) (name : string)
    : list Main.DisplayRecord :=
  filter (λ p, Main.d_name p ≠ name) prev.

(** One message from the main process. *)
Definition receive (prev : list Main.DisplayRecord) (msg : Main.Message)
    : list Main.DisplayRecord :=
  match msg with
  | Main.FileAdded newPhoto => onFileAdded prev newPhoto
  | Main.FileRemoved name _ => onFileRemoved prev name
  end.

Definition currentIndexOf (photos : list Main.DisplayRecord)
    (selectedPhoto : Main.DisplayRecord) : Z :=
  Js.findIndex (λ p, String.eqb (Main.d_id p) (Main.d_id selectedPhoto))
               photos.

(** The key handler of the editor with no tool active; the result is the
    selected photo afterwards ([onSelect] replaces it). *)
Definition arrowLeft (photos : list Main.DisplayRecord)
    (selectedPhoto : Main.DisplayRecord) : Main.DisplayRecord :=
  let currentIndex := currentIndexOf photos selectedPhoto in
  if 0 <? currentIndex
  then default selectedPhoto (photos !! Z.to_nat (currentIndex - 1))
  else selectedPhoto.

Definition arrowRight (photos : list Main.DisplayRecord)
    (selectedPhoto : Main.DisplayRecord) : Main.DisplayRecord :=
  let currentIndex := currentIndexOf photos selectedPhoto in
  if currentIndex <? Z.of_nat (length photos) - 1
  then default selectedPhoto (photos !! Z.to_nat (currentIndex + 1))
  else selectedPhoto.

End Renderer.

(** ** A concrete platform for the examples

    POSIX-style joins; an "image" is a file whose bytes start with its
    dimensions class: [L...] decodes as 3000x2000, [S...] as 800x600,
    [T...] as 3000x2000 but breaks the encoder after the output was
    opened; anything else does not decode. *)

Module Demo.

Definition join (a b : string) : string := (a ++ "/" ++ b)%string.

Fixpoint basename_aux (acc s : string) : string :=
  match s with
  | EmptyString => acc
  | String c rest =>
      if bool_decide (c = "/"%char) then basename_aux EmptyString rest
      else basename_aux (acc ++ String c EmptyString)%string rest
  end.

Definition metadataOf (data : string) : option Metadata :=
  match data with
  | String "L" _ => Some (mkMetadata (Some 3000) (Some 2000))
  | String "T" _ => Some (mkMetadata (Some 3000) (Some 2000))
  | String "S" _ => Some (mkMetadata (Some 800) (Some 600))
  | _ => None
  end.

Definition pipelineTag (pl : Pipeline) : string :=
  match pl with
  | ThumbWebp => "thumb:"
  | StandardJpeg _ => "standard:"
  | FullJpeg => "full:"
  end.

Definition encode (pl : Pipeline) (data : string) : ToFileOutcome :=
  match data with
  | String "L" _ => Written (pipelineTag pl ++ data)%string
  | String "S" _ => Written (pipelineTag pl ++ data)%string
  | String "T" _ => OutputError "partial"
  | _ => InputError
  end.

Definition parse (data : string) : option SidecarMeta :=
  if String.eqb data "{}" then Some (mkSidecarMeta None None) else None.

Definition platform : Platform :=
  {| path_join := join;
     path_basename := basename_aux EmptyString;
     sharp_metadata := metadataOf;
     sharp_toFile := encode;
     readJSON := parse;
     encodeURIComponent := λ s, s;
     toISOString := λ t, pretty t |}.

Definition manager : Sidecar.SidecarManager :=
  Sidecar.new (H := platform) "/p".

(** A folder /p with a large, a small and an undecodable picture. *)
Definition disk : FileSystem :=
  mkFs (<["/p/big.jpg" := mkFile "Lbig" 100 90]>
        (<["/p/small.jpg" := mkFile "Ssmall" 100 90]>
         (<["/p/broken.jpg" := mkFile "garbage" 100 90]> ∅)))
       [].

(** The same folder after a first full-size generation for big.jpg. *)
Definition generatedOnce : FileSystem :=
  (Sidecar.generate (H := platform) Sidecar.FullPreview 200 manager
     "/p/big.jpg" "big.jpg" disk).2.


(** A folder with a picture the encoder breaks on, and its old,
    outdated thumbnail. *)
Definition tornDisk : FileSystem :=
  mkFs (<["/p/torn.jpg" := mkFile "Ttorn" 100 90]>
        (<["/p/.capture-open/thumbnails/torn.jpg.thumb.webp"
           := mkFile "old thumbnail" 50 50]> ∅))
       [].

Definition server : ThumbnailServer.ThumbnailServer :=
  ThumbnailServer.mkServer 45678 {[ "_p" := manager ]}.

Definition world : Main.World :=
  Main.mkWorld disk Database.empty_db
    (ThumbnailServer.mkServer 45678 ∅) ∅ (Store.mkStore [])
    (Some []) None [].

(** The rated photo of the spec's scenario: rating 5 stored at mtime 20. *)
Definition ratedPhoto : Database.ImageRecord :=
  Database.mkImage "/p/photo.jpg" "_p" "/p/photo.jpg" "photo.jpg"
    1000 800 600 5 20 5.

Definition ratedDb : Database.DatabaseManager :=
  Database.upsertImage ratedPhoto Database.empty_db.

(** A rescan of the same file reporting mtime 10 and rating 0. *)
Definition staleRescan : Database.ImageRecord :=
  Database.mkImage "/p/photo.jpg" "_p" "/p/photo.jpg" "photo.jpg"
    900 640 480 5 10 0.

(** A rescan of the same file reporting mtime 30 and rating 3. *)
Definition newerRescan : Database.ImageRecord :=
  Database.mkImage "/p/photo.jpg" "_p" "/p/photo.jpg" "photo.jpg"
    900 640 480 5 30 3.

(** A projects table whose row has accumulated a cache size. *)
Definition sizedDb : Database.DatabaseManager :=
  Database.mkDb {[ "_p" := Database.mkProject "_p" "p" "/p" 7 8 4096 ]} ∅ 0.

End Demo.

(** ** Vocabulary of the properties *)

Section Vocabulary.
Context `{Platform}.

(** A derivative is valid: it exists and is at least as new as the source. *)
Definition fresh (fs : FileSystem) (derivative imagePath : string) : Prop :=
  ∃ d src, files fs !! derivative = Some d
           ∧ files fs !! imagePath = Some src
           ∧ f_mtime src ≤ f_mtime d.

(** A source the full-size tier applies to. *)
Definition largeSource (fs : FileSystem) (imagePath : string) : Prop :=
  ∃ src md, files fs !! imagePath = Some src
            ∧ sharp_metadata (f_data src) = Some md
            ∧ 1600 < Sidecar.maxDimensionOf md.

(** The write discipline of the spec: the final path is never opened for
    writing, it only ever receives a finished file by rename, and a
    failed generation leaves there what was there before, or nothing. *)
Definition writtenAtomically : Prop :=
  ∀ t now m imagePath imageName fs,
    let final := Sidecar.derivativePath t m imageName in
    let '(r, fs') := Sidecar.generate t now m imagePath imageName fs in
    (∀ events, journal fs' = journal fs ++ events →
               EvWrite final ∉ events)
    ∧ ((∃ e, r = Throw e) →
       files fs' !! final = files fs !! final ∨ files fs' !! final = None).

(** The file a request names at one tier: the file at the path the
    registered manager of the request's project gives for that tier.  A
    request for a project the server has no manager for names no file. *)
Definition requestedFile (srv : ThumbnailServer.ThumbnailServer)
    (fs : FileSystem) (projectId : string)
    (pathOf : Sidecar.SidecarManager → string) : option File :=
  manager ← ThumbnailServer.sidecarManagers srv !! projectId;
  files fs !! pathOf manager.

(** The successful answer streaming file [f]. *)
Definition served (f : File) : ThumbnailServer.Response :=
  ThumbnailServer.mkResponse 200
    [("Cache-Control", "public, max-age=31536000");
     ("Content-Type", "image/jpeg")]
    (f_data f).

End Vocabulary.

(** upsertProject called again and again for one id, each call with its
    own clock reading, name and path. *)
Definition upsertProjectRepeatedly (pid : string)
    (calls : list (Z * string * string)) (db : Database.DatabaseManager)
    : Database.DatabaseManager :=
  foldl (λ d '(now, name, path), Database.upsertProject now pid name path d)
        db calls.

(** The clock reading of the latest call ([first] when [calls] is
    empty). *)
Definition latestCall (first : Z) (calls : list (Z * string * string)) : Z :=
  foldl (λ _ c, c.1.1) first calls.

(** A row with its rating blanked: what two tables are compared on when
    they may differ in ratings only. *)
Definition withoutRating (r : Database.ImageRecord) : Database.ImageRecord :=
  Database.mkImage (Database.id r) (Database.project_id r)
    (Database.file_path r) (Database.file_name r) (Database.file_size r)
    (Database.width r) (Database.height r) (Database.created_at r)
    (Database.modified_at r) 0.

(** The rows of one project. *)
Definition inProject (projectId : string)
    (kv : string * Database.ImageRecord) : Prop :=
  Database.project_id kv.2 = projectId.

#[export] Instance inProject_dec projectId kv :
  Decision (inProject projectId kv).
Proof. unfold inProject. apply _. Defined.

Definition table (w : Main.World) : gmap string Database.ImageRecord :=
  Database.images (Main.dbManager w).



(** One write to the images table: a single upsert or a batch. *)
Inductive Write :=
| WriteOne (image : Database.ImageRecord)
| WriteBatch (records : list Database.ImageRecord).

Definition applyWrite (w : Write) (db : Database.DatabaseManager)
    : Database.DatabaseManager :=
  match w with
  | WriteOne image => Database.upsertImage image db
  | WriteBatch records => Database.upsertImagesBatch records db
  end.

Definition applyWrites (ws : list Write) (db : Database.DatabaseManager)
    : Database.DatabaseManager :=
  foldl (λ d w, applyWrite w d) db ws.

(** The columns no upsert touches on a stored row. *)
Definition sameIdentity (a b : Database.ImageRecord) : Prop :=
  Database.id a = Database.id b
  ∧ Database.project_id a = Database.project_id b
  ∧ Database.file_path a = Database.file_path b
  ∧ Database.file_name a = Database.file_name b
  ∧ Database.created_at a = Database.created_at b.


(** The projects table as the schema wants it: rows sit under their id,
    and no two rows share a path. *)
Definition projectsConsistent (db : Database.DatabaseManager) : Prop :=
  (∀ k row, Database.projects db !! k = Some row → Database.p_id row = k)
  ∧ (∀ k1 k2 row1 row2,
       Database.projects db !! k1 = Some row1 →
       Database.projects db !! k2 = Some row2 →
       Database.p_path row1 = Database.p_path row2 → k1 = k2).

(** [s] has [pat] somewhere inside. *)
Definition contains (s pat : string) : Prop :=
  ∃ pre post : string, s = (pre ++ pat ++ post)%string.

(** The listed derivative entries cleanupOrphaned takes for orphans. *)
Definition orphanEntries (infer : string → string)
    (imageFiles entries : list string) : list string :=
  filter (λ entry, infer entry ∉ imageFiles) entries.

(** [pat] occurs in [s] (lists of characters). *)
Definition occurs (pat s : list ascii) : Prop :=
  ∃ pre post, s = pre ++ pat ++ post.

(** No proper end of [pat] is a beginning of [suf]. *)
Definition noStraddle (pat suf : list ascii) : Prop :=
  ∀ u v, u ≠ [] → v ≠ [] → pat = u ++ v → ¬ v `prefix_of` suf.

Definition noStraddleb (pat suf : list ascii) : bool :=
  forallb (λ k, negb (bool_decide (drop k pat `prefix_of` suf)))
          (seq 1 (length pat - 1)).

Definition occursb (pat s : list ascii) : bool :=
  existsb (λ k, bool_decide (pat `prefix_of` drop k s))
          (seq 0 (S (length s))).

(** ** Further example data *)

Module Fixtures.
Import Demo.

(** A serialiser for the one sidecar object [Demo.parse] reads. *)
Definition writer : JsonWriter := {| writeJSON := λ _, "{}" |}.

(** Ports 45678 and 45679 are taken, every other port is free. *)
Definition busyListen (port : Z) : ThumbnailServer.ListenOutcome :=
  if (port =? 45678) || (port =? 45679)
  then ThumbnailServer.AddrInUse
  else ThumbnailServer.Listening.

(** The process after start-watching on /p once: the manager of /p is
    registered under _p in the process and in the server. *)
Definition servedWorld : Main.World :=
  Main.mkWorld disk Database.empty_db server {[ "_p" := manager ]}
    (Store.mkStore []) (Some []) None [].

(** The same with the watcher of /p running. *)
Definition watchedWorld : Main.World :=
  Main.with_watcher (Some (Main.mkWatcher "/p" "_p" manager)) servedWorld.

(** A process whose cache knows photo.jpg, which is not on disk. *)
Definition cachedWorld : Main.World :=
  Main.with_db ratedDb world.

Definition photoA : Main.DisplayRecord :=
  Main.mkDisplay "/p/a.jpg" "a.jpg" "/p/a.jpg" "thumb-a" None None "url-a"
                 0 0 0 [] None.

Definition photoB : Main.DisplayRecord :=
  Main.mkDisplay "/p/b.jpg" "b.jpg" "/p/b.jpg" "thumb-b" None None "url-b"
                 0 0 0 [] None.

End Fixtures.

(** * Properties of the Metadata Cache *)

Section DatabaseFacts.
Import Database Demo.

Lemma images_checkOptimization db :
  images (checkOptimization db) = images db.
Proof. unfold checkOptimization. by case_match. Qed.


Lemma images_upsertImage image db :
  images (upsertImage image db)
  = run_upsert update_single image (images db).
Proof. unfold upsertImage. by rewrite images_checkOptimization. Qed.



Lemma run_upsert_other set image tbl k :
  k ≠ id image → run_upsert set image tbl !! k = tbl !! k.
Proof.
  intros Hk. unfold run_upsert.
  destruct (tbl !! id image) as [stored|]; [case_match|];
    try done; by rewrite lookup_insert_ne.
Qed.

Lemma run_upsert_self set image tbl :
  run_upsert set image tbl !! id image
  = Some (match tbl !! id image with
          | None => image
          | Some stored =>
              if modified_at stored <? modified_at image
              then set stored image else stored
          end).
Proof.
  unfold run_upsert.
  destruct (tbl !! id image) as [stored|] eqn:Hrow;
    [case_match|]; by rewrite ?lookup_insert_eq.
Qed.

(** Upserts of rows with different ids commute, so the order in which the
    concurrent pipelines of one batch reach the database does not show
    in the tables. *)
Lemma run_upsert_comm set a b tbl :
  id a ≠ id b →
  run_upsert set a (run_upsert set b tbl)
  = run_upsert set b (run_upsert set a tbl).
Proof.
  intros Hab. apply map_eq. intros k.
  destruct (decide (k = id a)) as [->|Hka];
    [|destruct (decide (k = id b)) as [->|Hkb]].
  - rewrite run_upsert_self, (run_upsert_other _ b) by done.
    by rewrite (run_upsert_other _ b), run_upsert_self by done.
  - rewrite (run_upsert_other _ a), run_upsert_self by done.
    by rewrite run_upsert_self, (run_upsert_other _ a) by done.
  - by rewrite !run_upsert_other by done.
Qed.

Lemma images_upsertImage_all records : ∀ db,
  images (foldl (λ d r, upsertImage r d) db records)
  = foldl (λ tbl r, run_upsert update_single r tbl) (images db) records.
Proof.
  induction records as [|r records IH]; intros db; [done|].
  cbn. by rewrite IH, images_upsertImage.
Qed.

Lemma run_upsert_without_rating image tbl1 tbl2 :
  (∀ k, withoutRating <$> tbl1 !! k = withoutRating <$> tbl2 !! k) →
  ∀ k, withoutRating <$> run_upsert update_batch image tbl1 !! k
       = withoutRating <$> run_upsert update_single image tbl2 !! k.
Proof.
  intros Hsame k. destruct (decide (k = id image)) as [->|Hk].
  - rewrite !run_upsert_self. specialize (Hsame (id image)).
    destruct (tbl1 !! id image) as [s1|], (tbl2 !! id image) as [s2|];
      try done.
    cbn in *. injection Hsame as Hid Hpid Hpath Hname Hsize Hw Hh Hc Hm.
    rewrite Hm. case_match; unfold withoutRating; cbn; congruence.
  - by rewrite !run_upsert_other.
Qed.

(** What the batch does share with record-by-record upserts: the two
    resulting tables have the same rows with the same fields, ratings
    apart. *)
Lemma upsertImagesBatch_agrees_up_to_rating records db k :
  withoutRating <$> images (upsertImagesBatch records db) !! k
  = withoutRating <$> images (foldl (λ d r, upsertImage r d) db records) !! k.
Proof.
  unfold upsertImagesBatch.
  rewrite images_checkOptimization, images_upsertImage_all. cbn.
  assert (Hgen : ∀ tbl1 tbl2 : gmap string ImageRecord,
    (∀ j, withoutRating <$> tbl1 !! j = withoutRating <$> tbl2 !! j) →
    ∀ j, withoutRating
           <$> foldl (λ tbl image, run_upsert update_batch image tbl)
                     tbl1 records !! j
         = withoutRating
           <$> foldl (λ tbl r, run_upsert update_single r tbl)
                     tbl2 records !! j).
  { induction records as [|r records IH]; intros tbl1 tbl2 Hsame j;
      [apply Hsame|].
    cbn. apply IH. by apply run_upsert_without_rating. }
  by apply Hgen.
Qed.




Lemma lookup_upsertProject now pid name path db :
  projects (upsertProject now pid name path db) !! pid
  = Some (mkProject pid name path
            (default now (p_created_at <$> projects db !! pid)) now 0).
Proof.
  unfold upsertProject. cbn. rewrite lookup_insert_eq.
  by destruct (projects db !! pid).
Qed.

Lemma upsertProjectRepeatedly_row pid calls : ∀ db row,
  projects db !! pid = Some row →
  p_id row = pid →
  ∃ row', projects (upsertProjectRepeatedly pid calls db) !! pid = Some row'
          ∧ p_id row' = pid
          ∧ p_created_at row' = p_created_at row
          ∧ p_last_opened row' = latestCall (p_last_opened row) calls.
Proof.
  induction calls as [|[[now name] path] calls IH]; intros db row Hrow Hid.
  - exists row. by cbn.
  - cbn.
    destruct (IH (upsertProject now pid name path db)
                 (mkProject pid name path (p_created_at row) now 0))
      as (row' & Hrow' & Hid' & Hc & Hl).
    + rewrite lookup_upsertProject. by rewrite Hrow.
    + done.
    + exists row'. repeat split; try done.
Qed.

(** C9. After a first upsertProject for an id and any number of further
    calls for the same id, the row is still there under that id, its
    created_at is the one the first call left (the clock reading of the
    first call when the project was new), and its last_opened is the clock
    reading of the latest call. *)
Theorem upsertProject_keeps_created_at db pid now name path calls :
  let first := upsertProject now pid name path db in
  let final := upsertProjectRepeatedly pid calls first in
  ∃ row1 row,
    projects first !! pid = Some row1
    ∧ projects final !! pid = Some row
    ∧ p_id row = pid
    ∧ p_created_at row1
      = default now (p_created_at <$> projects db !! pid)
    ∧ p_created_at row = p_created_at row1
    ∧ p_last_opened row = latestCall now calls.
Proof.
  intros first final.
  pose proof (lookup_upsertProject now pid name path db) as Hfirst.
  destruct (upsertProjectRepeatedly_row pid calls first _ Hfirst eq_refl)
    as (row & Hrow & Hid & Hc & Hl).
  eexists _, row. split; [exact Hfirst|]. by repeat split.
Qed.

(** C10. upsertProject on a project that is already stored writes a whole
    new row: name, path and last_opened are the call's, created_at is
    carried over from the old row, and cache_size is back at its default
    0 whatever the old row held. *)
Theorem upsertProject_resets_cache_size db pid now name path old :
  projects db !! pid = Some old →
  projects (upsertProject now pid name path db) !! pid
  = Some (mkProject pid name path (p_created_at old) now 0).
Proof. intros Hold. rewrite lookup_upsertProject. by rewrite Hold. Qed.

Lemma upsertProject_resets_cache_size_witness :
  projects (upsertProject 50 "_p" "p" "/p" sizedDb) !! "_p"
  = Some (mkProject "_p" "p" "/p" 7 50 0).
Proof.
  apply (upsertProject_resets_cache_size sizedDb "_p" 50 "p" "/p"
           (mkProject "_p" "p" "/p" 7 8 4096)).
  reflexivity.
Defined.

End DatabaseFacts.

(** * Properties of the Derivative Store *)

Section SidecarFacts.
Context `{Platform}.
Import Sidecar.

Ltac io_unfold :=
  unfold mbind, Io_bind, io_bind, mret, Io_ret, io_ret, io_throw,
         Fs.pathExists, Fs.stat, Fs.readFile, Fs.writeFile in *.

Lemma upToDate_fresh fs derivative imagePath :
  fresh fs derivative imagePath →
  upToDate derivative imagePath fs = (Ok true, fs).
Proof.
  intros (d & src & Hd & Hsrc & Hle).
  unfold upToDate. io_unfold. rewrite Hd. cbn. rewrite Hsrc, Hd.
  by destruct (Z.leb_spec (f_mtime src) (f_mtime d)); [|lia].
Qed.

Lemma upToDate_cases fs derivative imagePath :
  (∃ e, upToDate derivative imagePath fs = (Throw e, fs))
  ∨ (upToDate derivative imagePath fs = (Ok true, fs)
     ∧ fresh fs derivative imagePath)
  ∨ upToDate derivative imagePath fs = (Ok false, fs).
Proof.
  unfold upToDate, fresh. io_unfold.
  destruct (files fs !! derivative) as [d|] eqn:Hd; cbn; [|by right; right].
  destruct (files fs !! imagePath) as [src|] eqn:Hsrc; [|left; eauto].
  rewrite ?Hd. destruct (f_mtime src <=? f_mtime d) eqn:Hle.
  - right; left. split; [done|]. apply Z.leb_le in Hle. eauto 10.
  - by right; right.
Qed.

Lemma sharp_read_metadata_ok fs imagePath src md :
  files fs !! imagePath = Some src →
  sharp_metadata (f_data src) = Some md →
  sharp_read_metadata imagePath fs = (Ok md, fs).
Proof.
  intros Hsrc Hmd. unfold sharp_read_metadata. io_unfold.
  by rewrite Hsrc, Hmd.
Qed.

Lemma sharp_read_metadata_inv fs imagePath md fs' :
  sharp_read_metadata imagePath fs = (Ok md, fs') →
  fs' = fs ∧ ∃ src, files fs !! imagePath = Some src
                    ∧ sharp_metadata (f_data src) = Some md.
Proof.
  unfold sharp_read_metadata. io_unfold.
  destruct (files fs !! imagePath) as [src|]; [|done].
  destruct (sharp_metadata (f_data src)) eqn:Hmd; [|done].
  intros [= <- <-]. eauto.
Qed.

(** The encoder call: nothing happens, or the output path itself is
    opened and holds what the encoder left. *)
Lemma sharp_to_file_cases now pl input output fs :
  (∃ e, sharp_to_file now pl input output fs = (Throw e, fs))
  ∨ (∃ src data, files fs !! input = Some src
       ∧ sharp_toFile pl (f_data src) = Written data
       ∧ sharp_to_file now pl input output fs
         = (Ok tt, Fs.put now output data fs))
  ∨ (∃ src partial e, files fs !! input = Some src
       ∧ sharp_toFile pl (f_data src) = OutputError partial
       ∧ sharp_to_file now pl input output fs
         = (Throw e, Fs.put now output partial fs)).
Proof.
  unfold sharp_to_file. io_unfold.
  destruct (files fs !! input) as [src|] eqn:Hsrc; [|left; eauto].
  destruct (sharp_toFile pl (f_data src)) eqn:Henc.
  - right; left. eauto.
  - left; eauto.
  - right; right. eauto 10.
Qed.

Lemma lookup_put now p data fs :
  is_Some (files (Fs.put now p data fs) !! p).
Proof. unfold Fs.put. cbn. rewrite lookup_insert_eq. eauto. Qed.


Lemma sharp_read_metadata_cases fs imagePath :
  (∃ e, sharp_read_metadata imagePath fs = (Throw e, fs))
  ∨ (∃ src md, files fs !! imagePath = Some src
       ∧ sharp_metadata (f_data src) = Some md
       ∧ sharp_read_metadata imagePath fs = (Ok md, fs)).
Proof.
  unfold sharp_read_metadata. io_unfold.
  destruct (files fs !! imagePath) as [src|]; [|left; eauto].
  destruct (sharp_metadata (f_data src)) eqn:Hmd; [|left; eauto].
  right. eauto.
Qed.

(** With a valid derivative on disk every generator returns its path at
    once; the full-size generator first passes its dimension gate. *)
Lemma generate_fresh t now m imagePath imageName fs :
  fresh fs (derivativePath t m imageName) imagePath →
  (t = FullPreview → largeSource fs imagePath) →
  generate t now m imagePath imageName fs
  = (Ok (Some (derivativePath t m imageName)), fs).
Proof.
  intros Hfresh Hlarge. destruct t; cbn in *.
  - unfold generateThumbnail. unfold mbind, Io_bind, io_bind.
    by rewrite (upToDate_fresh _ _ _ Hfresh).
  - unfold generateStandardPreview. unfold mbind, Io_bind, io_bind.
    by rewrite (upToDate_fresh _ _ _ Hfresh).
  - destruct (Hlarge eq_refl) as (src & md & Hsrc & Hmd & Hbig).
    unfold generateFullSizePreview. unfold mbind, Io_bind, io_bind.
    rewrite (sharp_read_metadata_ok _ _ _ _ Hsrc Hmd).
    destruct (Z.leb_spec (maxDimensionOf md) 1600); [lia|].
    by rewrite (upToDate_fresh _ _ _ Hfresh).
Qed.

(** A generator that returned a path returned the tier's derivative path,
    and for the full-size tier the source passed the gate. *)
Lemma generate_some_inv t now m imagePath imageName fs p fs1 :
  generate t now m imagePath imageName fs = (Ok (Some p), fs1) →
  p = derivativePath t m imageName
  ∧ (t = FullPreview → largeSource fs imagePath).
Proof.
  destruct t; cbn.
  - unfold generateThumbnail. unfold mbind, Io_bind, io_bind.
    destruct (upToDate _ _ fs) as [[[]|] ?]; cbn; try done.
    + by intros [= <- <-].
    + destruct (sharp_to_file _ _ _ _ _) as [[|] ?]; [|done].
      by intros [= <- <-].
  - unfold generateStandardPreview. unfold mbind, Io_bind, io_bind.
    destruct (upToDate _ _ fs) as [[[]|] ?]; cbn; try done.
    + by intros [= <- <-].
    + destruct (sharp_read_metadata _ _) as [[|] ?]; [|done].
      destruct (sharp_to_file _ _ _ _ _) as [[|] ?]; [|done].
      by intros [= <- <-].
  - unfold generateFullSizePreview. unfold mbind, Io_bind, io_bind.
    destruct (sharp_read_metadata_cases fs imagePath)
      as [(e & ->)|(src & md & Hsrc & Hmd & ->)]; [done|].
    destruct (Z.leb_spec (maxDimensionOf md) 1600); [done|].
    intros Hrun. split; [|intros _; exists src, md; done].
    destruct (upToDate _ _ fs) as [[[]|] ?]; cbn in Hrun; try done.
    + by injection Hrun as <- <-.
    + destruct (sharp_to_file _ _ _ _ _) as [[|] ?]; [|done].
      by injection Hrun as <- <-.
Qed.

(** C6. When a generation call for a tier has returned the derivative's
    path, a second call for the same, unchanged source made while the
    derivative file exists with an mtime at or after the source's returns
    that same path and leaves the disk (every file, and the journal of
    writes) exactly as it was. *)
Theorem generate_again_is_noop t now1 now2 m imagePath imageName fs p fs1 :
  generate t now1 m imagePath imageName fs = (Ok (Some p), fs1) →
  files fs1 !! imagePath = files fs !! imagePath →
  fresh fs1 (derivativePath t m imageName) imagePath →
  p = derivativePath t m imageName
  ∧ generate t now2 m imagePath imageName fs1 = (Ok (Some p), fs1).
Proof.
  intros Hfirst Hsame Hfresh.
  destruct (generate_some_inv _ _ _ _ _ _ _ _ Hfirst) as [-> Hgate].
  split; [done|]. apply generate_fresh; [done|].
  intros Ht. destruct (Hgate Ht) as (src & md & Hsrc & Hmd & Hbig).
  exists src, md. by rewrite Hsame.
Qed.

(** C7, as the code has it. A generation call either leaves the disk
    untouched, or makes exactly one journalled write, which is the
    encoder opening the final derivative path itself: no temporary file
    and no rename.  After it the final path holds what the encoder left:
    the finished derivative when the call returns the path, the partial
    output when the encoder failed after opening its output. *)
Theorem generate_writes_final_path_in_place t now m imagePath imageName fs :
  let final := derivativePath t m imageName in
  let '(r, fs') := generate t now m imagePath imageName fs in
  fs' = fs
  ∨ ∃ src pl data,
      files fs !! imagePath = Some src
      ∧ fs' = Fs.put now final data fs
      ∧ journal fs' = (journal fs ++ [EvWrite final])%list
      ∧ f_data <$> files fs' !! final = Some data
      ∧ ((r = Ok (Some final) ∧ sharp_toFile pl (f_data src) = Written data)
         ∨ ((∃ e, r = Throw e)
            ∧ sharp_toFile pl (f_data src) = OutputError data)).
Proof.
  assert (Hput : ∀ pl final,
    let '(r, fs') :=
      io_bind (sharp_to_file now pl imagePath final)
              (λ _, io_ret (Some final)) fs in
    fs' = fs
    ∨ ∃ src pl data,
        files fs !! imagePath = Some src
        ∧ fs' = Fs.put now final data fs
        ∧ journal fs' = (journal fs ++ [EvWrite final])%list
        ∧ f_data <$> files fs' !! final = Some data
        ∧ ((r = Ok (Some final) ∧ sharp_toFile pl (f_data src) = Written data)
           ∨ ((∃ e, r = Throw e)
              ∧ sharp_toFile pl (f_data src) = OutputError data))).
  { intros pl final. unfold io_bind, io_ret.
    destruct (sharp_to_file_cases now pl imagePath final fs)
      as [(e & ->)|[(src & data & Hs & Hd & ->)|(src & part & e & Hs & Hp & ->)]].
    - by left.
    - right. exists src, pl, data. cbn. rewrite lookup_insert_eq. eauto 10.
    - right. exists src, pl, part. cbn. rewrite lookup_insert_eq. eauto 10. }
  intros final. subst final. destruct t; cbn.
  - unfold generateThumbnail. unfold mbind at 1 2. unfold Io_bind, io_bind.
    destruct (upToDate_cases fs (getThumbnailPath m imageName) imagePath)
      as [(e & ->) | [(-> & _) | ->]]; [by left|by left|].
    specialize (Hput ThumbWebp (getThumbnailPath m imageName)).
    unfold mbind, Io_bind, io_bind, mret, Io_ret, io_ret in *.
    destruct (sharp_to_file _ _ _ _ _) as [[|] ?]; exact Hput.
  - unfold generateStandardPreview. unfold mbind at 1 2. unfold Io_bind, io_bind.
    destruct (upToDate_cases fs (getStandardPreviewPath m imageName) imagePath)
      as [(e & ->) | [(-> & _) | ->]]; [by left|by left|].
    unfold mbind at 1. unfold Io_bind, io_bind.
    destruct (sharp_read_metadata_cases fs imagePath)
      as [(e & ->)|(src & md & _ & _ & ->)]; [by left|].
    match goal with
    | |- context [sharp_to_file _ ?pl _ _] =>
        specialize (Hput pl (getStandardPreviewPath m imageName))
    end.
    unfold mbind, Io_bind, io_bind, mret, Io_ret, io_ret in *.
    destruct (sharp_to_file _ _ _ _ _) as [[|] ?]; exact Hput.
  - unfold generateFullSizePreview. unfold mbind at 1. unfold Io_bind, io_bind.
    destruct (sharp_read_metadata_cases fs imagePath)
      as [(e & ->)|(src & md & _ & _ & ->)]; [by left|].
    destruct (Z.leb_spec (maxDimensionOf md) 1600); [by left|].
    unfold mbind at 1. unfold Io_bind, io_bind.
    destruct (upToDate_cases fs (getFullSizePreviewPath m imageName) imagePath)
      as [(e & ->) | [(-> & _) | ->]]; [by left|by left|].
    specialize (Hput FullJpeg (getFullSizePreviewPath m imageName)).
    unfold mbind, Io_bind, io_bind, mret, Io_ret, io_ret in *.
    destruct (sharp_to_file _ _ _ _ _) as [[|] ?]; exact Hput.
Qed.

End SidecarFacts.

(** * Properties of the Derivative Server *)

Section ServerFacts.
Context `{Platform}.
Import ThumbnailServer.

Lemma pathExists_true fs p : pathExists fs p = true ↔ is_Some (files fs !! p).
Proof. unfold pathExists. apply bool_decide_eq_true. Qed.

Lemma pathExists_false fs p : pathExists fs p = false ↔ files fs !! p = None.
Proof.
  unfold pathExists. rewrite bool_decide_eq_false.
  by rewrite eq_None_not_Some.
Qed.

Lemma streamFile_served fs p f :
  files fs !! p = Some f → streamFile fs p = served f.
Proof. intros Hf. unfold streamFile, served. by rewrite Hf. Qed.


End ServerFacts.

(** * Properties of the Reconciliation Engine *)

Section EngineFacts.
Context `{Platform}.
Import Main.

(** C8, as the code has it. The project id start-watching works under
    (the watcher's id, the key of the projects row and of the sidecar
    manager) is [projectIdOf folderPath] whatever the clock and the state
    of the process: two runs on one path give equal ids. *)
Theorem startWatching_project_id_from_path now1 now2 folderPath w1 w2 :
  let a := (startWatching now1 folderPath w1).2 in
  let b := (startWatching now2 folderPath w2).2 in
  w_projectId <$> watcher a = Some (projectIdOf folderPath)
  ∧ w_projectId <$> watcher a = w_projectId <$> watcher b
  ∧ is_Some (sidecarManagers a !! projectIdOf folderPath)
  ∧ ∃ row, Database.projects (dbManager a) !! projectIdOf folderPath = Some row
           ∧ Database.p_id row = projectIdOf folderPath
           ∧ Database.p_path row = folderPath.
Proof.
  intros a b. subst a b. unfold startWatching.
  destruct (sidecarManagers (with_watcher None w1) !! projectIdOf folderPath)
    as [m1|] eqn:Hm1;
  destruct (sidecarManagers (with_watcher None w2) !! projectIdOf folderPath)
    as [m2|] eqn:Hm2; cbn in *;
  (split; [done|]); (split; [done|]);
  (split; [rewrite ?Hm1, ?lookup_insert_eq; eauto|]);
  rewrite lookup_insert_eq; eauto.
Qed.

(** start-watching leaves the images table and the renderer's inbox as
    they are, and queues the background diff with the cached list it
    returns. *)
Lemma startWatching_queues_diff now folderPath w :
  let '(cached, w') := startWatching now folderPath w in
  Database.images (dbManager w') = Database.images (dbManager w)
  ∧ mainWindow w' = mainWindow w
  ∧ cached = cachedImagesOf (ThumbnailServer.getUrl (thumbnailServer w'))
               (projectIdOf folderPath) (dbManager w')
  ∧ ∃ mgr, sidecarManagers w' !! projectIdOf folderPath = Some mgr
           ∧ immediates w'
             = immediates w
               ++ [BackgroundDiff folderPath (projectIdOf folderPath) mgr
                                  cached].
Proof.
  unfold startWatching.
  destruct (sidecarManagers (with_watcher None w) !! projectIdOf folderPath)
    as [m|] eqn:Hm; cbn in *.
  - repeat split. eauto.
  - repeat split. rewrite lookup_insert_eq. eauto.
Qed.



Lemma prepareImage_inv now fullPath fileName projectId mgr url disk d r disk' :
  prepareImage now fullPath fileName projectId mgr url disk
  = (Ok (d, r), disk') →
  d_name d = fileName ∧ degraded d = false
  ∧ Database.id r = fullPath ∧ Database.project_id r = projectId.
Proof.
  unfold prepareImage, mbind, Io_bind, io_bind, mret, Io_ret, io_ret.
  repeat case_match; try done. by intros [= <- <- <-].
Qed.

(** One file through processImageWithSidecar: the record carries the
    file's name and nothing is sent; either the pipeline threw and the
    table is as before, or the record is a full one and the table took
    one upsert of a row with the file's absolute path as id. *)
Lemma processImageWithSidecar_spec now folderPath fileName projectId mgr w :
  let '(rec, w') :=
    processImageWithSidecar now folderPath fileName projectId mgr w in
  d_name rec = fileName
  ∧ mainWindow w' = mainWindow w
  ∧ ((degraded rec = true ∧ table w' = table w)
     ∨ (degraded rec = false
        ∧ ∃ row, Database.id row = path_join folderPath fileName
                 ∧ Database.project_id row = projectId
                 ∧ table w'
                   = Database.run_upsert Database.update_single row (table w))).
Proof.
  unfold processImageWithSidecar.
  destruct (prepareImage _ _ _ _ _ _ _) as [[[d r]|e] disk'] eqn:Hprep.
  - apply prepareImage_inv in Hprep as (Hname & Hok & Hid & Hpid).
    repeat split; [done|]. right. split; [done|].
    exists r. repeat split; [done..|].
    unfold table. cbn. by rewrite images_upsertImage.
  - repeat split. by left.
Qed.

Section Diff.
Variables (now : Z) (folderPath projectId : string).
Variable mgr : Sidecar.SidecarManager.

Abbreviation key := (path_join folderPath).







End Diff.


End EngineFacts.

(** * The properties on the example folder *)

Module Examples.
Import Demo.

#[local] Existing Instance platform.



Lemma generate_again_is_noop_witness :
  Sidecar.generate Sidecar.FullPreview 300 manager "/p/big.jpg" "big.jpg"
    generatedOnce
  = (Ok (Some "/p/.capture-open/previews/big.jpg.full.jpg"), generatedOnce).
Proof.
  apply (generate_again_is_noop Sidecar.FullPreview 200 300 manager
           "/p/big.jpg" "big.jpg" disk
           "/p/.capture-open/previews/big.jpg.full.jpg" generatedOnce).
  - reflexivity.
  - reflexivity.
  - exists (mkFile "full:Lbig" 200 200), (mkFile "Lbig" 100 90).
    split; [reflexivity|]. split; [reflexivity|]. cbn. lia.
Defined.


(** C7 fails on the code: the thumbnail of big.jpg is produced by one
    write that opens the final path itself, and when the encoder breaks
    on torn.jpg after opening its output, the final path holds the
    partial bytes, which are neither the old thumbnail nor nothing. *)
Lemma generation_is_not_atomic :
  Sidecar.generate Sidecar.Thumbnail 200 manager "/p/big.jpg" "big.jpg" disk
  = (Ok (Some "/p/.capture-open/thumbnails/big.jpg.thumb.webp"),
     Fs.put 200 "/p/.capture-open/thumbnails/big.jpg.thumb.webp"
            "thumb:Lbig" disk)
  ∧ journal (Sidecar.generate Sidecar.Thumbnail 200 manager "/p/big.jpg"
               "big.jpg" disk).2
    = [EvWrite "/p/.capture-open/thumbnails/big.jpg.thumb.webp"]
  ∧ (let '(r, fs') :=
       Sidecar.generate Sidecar.Thumbnail 200 manager "/p/torn.jpg"
                        "torn.jpg" tornDisk in
     r = Throw "write failed"
     ∧ f_data <$> files tornDisk
                    !! "/p/.capture-open/thumbnails/torn.jpg.thumb.webp"
       = Some "old thumbnail"
     ∧ f_data <$> files fs'
                    !! "/p/.capture-open/thumbnails/torn.jpg.thumb.webp"
       = Some "partial")
  ∧ ¬ writtenAtomically.
Proof.
  split; [reflexivity|]. split; [reflexivity|]. split; [by vm_compute|].
  intros Hatomic.
  specialize (Hatomic Sidecar.Thumbnail 200 manager "/p/big.jpg" "big.jpg"
                disk).
  cbv zeta in Hatomic.
  destruct (Sidecar.generate _ _ _ _ _ _) as [r fs'] eqn:Hrun.
  assert (fs' = Fs.put 200 "/p/.capture-open/thumbnails/big.jpg.thumb.webp"
                       "thumb:Lbig" disk) as ->
    by (vm_compute in Hrun; by injection Hrun as _ <-).
  destruct Hatomic as [Hwrite _].
  apply (Hwrite [EvWrite "/p/.capture-open/thumbnails/big.jpg.thumb.webp"]).
  - reflexivity.
  - constructor.
Qed.

(** C8 fails on the code for the project list: adding the folder /p at
    clock readings 1000 and 2000 gives two different ids. *)
Lemma addProject_id_follows_the_clock :
  Store.id (Store.addProject 1000 "/p" (Store.mkStore [])).1 = "proj-1000"
  ∧ Store.id (Store.addProject 2000 "/p" (Store.mkStore [])).1 = "proj-2000"
  ∧ Store.id (Store.addProject 1000 "/p" (Store.mkStore [])).1
    ≠ Store.id (Store.addProject 2000 "/p" (Store.mkStore [])).1.
Proof. split; [reflexivity|]. split; [reflexivity|]. by vm_compute. Qed.



End Examples.

(** * Further properties of the Metadata Cache *)

Section MoreDatabaseFacts.
Import Database.

#[local] Instance newer_first_trans : Transitive newer_first.
Proof. unfold newer_first. intros a b c. lia. Qed.

#[local] Instance newer_first_total : Total newer_first.
Proof. unfold newer_first. intros a b. lia. Qed.


Lemma run_upsert_keeps_row set image tbl k row :
  (∀ stored excluded,
     sameIdentity stored (set stored excluded)
     ∧ modified_at (set stored excluded) = modified_at excluded) →
  tbl !! k = Some row →
  ∃ row', run_upsert set image tbl !! k = Some row'
          ∧ sameIdentity row row'
          ∧ modified_at row ≤ modified_at row'.
Proof.
  intros Hset Hrow.
  assert (Hrefl : sameIdentity row row) by (by repeat split).
  destruct (decide (k = id image)) as [->|Hk].
  - rewrite run_upsert_self, Hrow.
    destruct (Z.ltb_spec (modified_at row) (modified_at image)).
    + destruct (Hset row image) as [Hid Hm].
      eexists. split; [done|]. split; [done|]. lia.
    + exists row. split; [done|]. split; [done|]. lia.
  - rewrite run_upsert_other by done. exists row.
    split; [done|]. split; [done|]. lia.
Qed.

Lemma update_single_identity stored excluded :
  sameIdentity stored (update_single stored excluded)
  ∧ modified_at (update_single stored excluded) = modified_at excluded.
Proof. by repeat split. Qed.

Lemma update_batch_identity stored excluded :
  sameIdentity stored (update_batch stored excluded)
  ∧ modified_at (update_batch stored excluded) = modified_at excluded.
Proof. by repeat split. Qed.

Lemma sameIdentity_trans a b c :
  sameIdentity a b → sameIdentity b c → sameIdentity a c.
Proof. unfold sameIdentity. intuition congruence. Qed.

Lemma applyWrite_keeps_row w db k row :
  images db !! k = Some row →
  ∃ row', images (applyWrite w db) !! k = Some row'
          ∧ sameIdentity row row'
          ∧ modified_at row ≤ modified_at row'.
Proof.
  destruct w as [image|records]; cbn.
  - rewrite images_upsertImage.
    apply run_upsert_keeps_row, update_single_identity.
  - unfold upsertImagesBatch. rewrite images_checkOptimization. cbn.
    generalize (images db) as tbl. revert row.
    induction records as [|r records IH]; intros row tbl Hrow.
    + exists row. split; [done|]. split; [by repeat split|lia].
    + cbn.
      destruct (run_upsert_keeps_row update_batch r tbl k row
                  update_batch_identity Hrow) as (row1 & H1 & Hid1 & Hm1).
      destruct (IH row1 _ H1) as (row' & H' & Hid' & Hm').
      exists row'. split; [done|].
      split; [by eapply sameIdentity_trans|lia].
Qed.

(** X2. No sequence of upserts, single or batched, deletes a stored row,
    changes its id, project_id, file_path, file_name or created_at, or
    moves its modified_at backwards. *)
Theorem writes_keep_rows ws : ∀ db k row,
  images db !! k = Some row →
  ∃ row', images (applyWrites ws db) !! k = Some row'
          ∧ sameIdentity row row'
          ∧ modified_at row ≤ modified_at row'.
Proof.
  induction ws as [|w ws IH]; intros db k row Hrow.
  - exists row. split; [done|]. split; [by repeat split|lia].
  - cbn. destruct (applyWrite_keeps_row w db k row Hrow)
      as (row1 & H1 & Hid1 & Hm1).
    destruct (IH _ k row1 H1) as (row' & H' & Hid' & Hm').
    exists row'. split; [done|].
    split; [by eapply sameIdentity_trans|lia].
Qed.







(** X5. upsertProject keeps the projects table consistent (rows under
    their id, no path twice), and it evicts every other project that
    holds the path being written, leaving all remaining rows as they
    were. *)
Theorem upsertProject_keeps_paths_unique now pid name path db :
  projectsConsistent db →
  projectsConsistent (upsertProject now pid name path db)
  ∧ ∀ k row, k ≠ pid → projects db !! k = Some row →
      projects (upsertProject now pid name path db) !! k
      = if decide (p_path row = path) then None else Some row.
Proof.
  intros [Hkey Hpaths].
  assert (Hother : ∀ k, k ≠ pid →
    projects (upsertProject now pid name path db) !! k
    = filter (λ kv : string * ProjectRow, p_path kv.2 ≠ path)
             (projects db) !! k).
  { intros k Hk. unfold upsertProject. cbn. by rewrite lookup_insert_ne. }
  split; [split|].
  - intros k row. destruct (decide (k = pid)) as [->|Hk].
    + rewrite lookup_upsertProject. by intros [= <-].
    + rewrite Hother by done. intros [Hrow _]%map_lookup_filter_Some.
      by apply Hkey.
  - intros k1 k2 row1 row2.
    destruct (decide (k1 = pid)) as [->|Hk1];
      destruct (decide (k2 = pid)) as [->|Hk2]; [done|..].
    + rewrite lookup_upsertProject, Hother by done.
      intros [= <-] [Hrow2 Hp2]%map_lookup_filter_Some Heq.
      cbn in *. congruence.
    + rewrite lookup_upsertProject, Hother by done.
      intros [Hrow1 Hp1]%map_lookup_filter_Some [= <-] Heq.
      cbn in *. congruence.
    + rewrite !Hother by done.
      intros [Hrow1 _]%map_lookup_filter_Some
             [Hrow2 _]%map_lookup_filter_Some.
      by apply Hpaths.
  - intros k row Hk Hrow. rewrite Hother by done.
    destruct (decide (p_path row = path)) as [Hp|Hp].
    + apply map_lookup_filter_None. right. intros row' Hrow'.
      cbn. rewrite Hrow in Hrow'. injection Hrow' as <-. by intros ?.
    + by apply map_lookup_filter_Some.
Qed.


End MoreDatabaseFacts.

(** * Further properties of the Derivative Store *)

Section MoreSidecarFacts.
Context `{Platform}.
Import Sidecar.


(** What one generator call can do to the disk. *)
Lemma generate_cases t now m imagePath imageName fs :
  let final := derivativePath t m imageName in
  let '(r, fs') := generate t now m imagePath imageName fs in
  (fs' = fs
   ∧ (∀ p, r = Ok (Some p) → p = final ∧ fresh fs final imagePath))
  ∨ (∃ data, fs' = Fs.put now final data fs
             ∧ is_Some (files fs !! imagePath)
             ∧ (r = Ok (Some final) ∨ ∃ e, r = Throw e)).
Proof.
  assert (Hwrite : ∀ pl final,
    let '(r, fs') :=
      io_bind (sharp_to_file now pl imagePath final)
              (λ _, io_ret (Some final)) fs in
    (fs' = fs
     ∧ (∀ p, r = Ok (Some p) → p = final ∧ fresh fs final imagePath))
    ∨ (∃ data, fs' = Fs.put now final data fs
               ∧ is_Some (files fs !! imagePath)
               ∧ (r = Ok (Some final) ∨ ∃ e, r = Throw e))).
  { intros pl final. unfold io_bind, io_ret.
    destruct (sharp_to_file_cases now pl imagePath final fs)
      as [(e & ->) | [(src & data & Hs & Hd & ->)
                     | (src & part & e & Hs & Hp & ->)]].
    - left. by split.
    - right. exists data. eauto.
    - right. exists part. eauto 10. }
  intros final. subst final. destruct t; cbn.
  - unfold generateThumbnail. unfold mbind at 1 2. unfold Io_bind, io_bind.
    destruct (upToDate_cases fs (getThumbnailPath m imageName) imagePath)
      as [(e & ->) | [(-> & Hfresh) | ->]].
    + left. by split.
    + left. split; [done|]. by intros p [= <-].
    + specialize (Hwrite ThumbWebp (getThumbnailPath m imageName)).
      unfold mbind, Io_bind, io_bind, mret, Io_ret, io_ret in *.
      destruct (sharp_to_file _ _ _ _ _) as [[|] ?]; exact Hwrite.
  - unfold generateStandardPreview. unfold mbind at 1 2.
    unfold Io_bind, io_bind.
    destruct (upToDate_cases fs (getStandardPreviewPath m imageName)
                imagePath) as [(e & ->) | [(-> & Hfresh) | ->]].
    + left. by split.
    + left. split; [done|]. by intros p [= <-].
    + unfold mbind at 1. unfold Io_bind, io_bind.
      destruct (sharp_read_metadata_cases fs imagePath)
        as [(e & ->)|(src & md & _ & _ & ->)]; [left; by split|].
      match goal with
      | |- context [sharp_to_file _ ?pl _ _] =>
          specialize (Hwrite pl (getStandardPreviewPath m imageName))
      end.
      unfold mbind, Io_bind, io_bind, mret, Io_ret, io_ret in *.
      destruct (sharp_to_file _ _ _ _ _) as [[|] ?]; exact Hwrite.
  - unfold generateFullSizePreview. unfold mbind at 1.
    unfold Io_bind, io_bind.
    destruct (sharp_read_metadata_cases fs imagePath)
      as [(e & ->)|(src & md & _ & _ & ->)]; [left; by split|].
    destruct (Z.leb_spec (maxDimensionOf md) 1600); [left; by split|].
    unfold mbind at 1. unfold Io_bind, io_bind.
    destruct (upToDate_cases fs (getFullSizePreviewPath m imageName)
                imagePath) as [(e & ->) | [(-> & Hfresh) | ->]].
    + left. by split.
    + left. split; [done|]. by intros p [= <-].
    + specialize (Hwrite FullJpeg (getFullSizePreviewPath m imageName)).
      unfold mbind, Io_bind, io_bind, mret, Io_ret, io_ret in *.
      destruct (sharp_to_file _ _ _ _ _) as [[|] ?]; exact Hwrite.
Qed.

(** X7. A generator call changes no file other than its own tier's
    derivative: every other path, the source included when it is not
    that path, holds afterwards what it held before, whether the call
    returns or throws; and nothing is ever taken out of the journal. *)
Theorem generate_touches_only_its_derivative
    t now m imagePath imageName fs p :
  p ≠ derivativePath t m imageName →
  let fs' := (generate t now m imagePath imageName fs).2 in
  files fs' !! p = files fs !! p
  ∧ journal fs `prefix_of` journal fs'.
Proof.
  intros Hp. pose proof (generate_cases t now m imagePath imageName fs) as Hc.
  cbv zeta in *. destruct (generate _ _ _ _ _ _) as [r fs']. cbn.
  destruct Hc as [[-> _]|(data & -> & _)]; [done|].
  cbn. rewrite lookup_insert_ne by done. split; [done|].
  by apply prefix_app_r.
Qed.

(** X8. Generation establishes validity: when a generator returns a
    path at a clock reading not behind the source's mtime, the file at
    that path exists and is at least as new as the source, so the next
    call will find it up to date. *)
Theorem generate_leaves_valid_derivative
    t now m imagePath imageName fs p fs' :
  generate t now m imagePath imageName fs = (Ok (Some p), fs') →
  p ≠ imagePath →
  (∀ src, files fs !! imagePath = Some src → f_mtime src ≤ now) →
  p = derivativePath t m imageName ∧ fresh fs' p imagePath.
Proof.
  intros Hrun Hp Hclock.
  pose proof (generate_cases t now m imagePath imageName fs) as Hc.
  cbv zeta in Hc. rewrite Hrun in Hc.
  destruct Hc as [[-> Hok]|(data & -> & [src Hsrc] & Hr)].
  - by destruct (Hok p eq_refl) as [-> ?].
  - destruct Hr as [[= ->]|[e ?]]; [|done]. split; [done|].
    unfold fresh. cbn. rewrite lookup_insert_eq, lookup_insert_ne by done.
    eexists _, src. split; [done|]. split; [done|]. cbn. by apply Hclock.
Qed.



End MoreSidecarFacts.

(** * Properties of the string functions *)

Section JsFacts.
Import Js.

Lemma removeFirst_unfold pat s :
  removeFirst pat s
  = match stripPrefix pat s with
    | Some rest => rest
    | None => match s with
              | [] => []
              | c :: s' => c :: removeFirst pat s'
              end
    end.
Proof. by destruct s. Qed.

Lemma stripPrefix_Some pat : ∀ s rest,
  stripPrefix pat s = Some rest ↔ s = pat ++ rest.
Proof.
  induction pat as [|a pat IH]; intros s rest; cbn.
  - split; [by intros [= ->]|by intros ->].
  - destruct s as [|b s]; [split; [done|discriminate]|].
    destruct (Ascii.eqb_spec a b) as [->|Hab].
    + rewrite IH. split; [by intros ->|by intros [= ->]].
    + split; [done|]. intros [= ? ?]. done.
Qed.

Lemma noStraddleb_sound pat suf :
  noStraddleb pat suf = true → noStraddle pat suf.
Proof.
  intros Hb u v Hu Hv -> Hpre.
  unfold noStraddleb in Hb. rewrite forallb_forall in Hb.
  specialize (Hb (length u)).
  rewrite drop_app_length in Hb.
  rewrite bool_decide_eq_true_2 in Hb by done.
  assert (In (length u) (seq 1 (length (u ++ v) - 1))) as Hin.
  { apply in_seq. rewrite length_app.
    destruct u, v; cbn in *; try done; lia. }
  by specialize (Hb Hin).
Qed.

Lemma occursb_complete pat s : occurs pat s → occursb pat s = true.
Proof.
  intros (pre & post & ->). unfold occursb. apply existsb_exists.
  exists (length pre). split.
  - apply in_seq. rewrite !length_app. lia.
  - rewrite drop_app_length. apply bool_decide_eq_true_2.
    by exists post.
Qed.

Lemma occurs_cons pat c s : occurs pat s → occurs pat (c :: s).
Proof. intros (pre & post & ->). by exists (c :: pre), post. Qed.

Lemma removeFirst_absent pat : ∀ s, ¬ occurs pat s → removeFirst pat s = s.
Proof.
  induction s as [|c s IH]; intros Hno; rewrite removeFirst_unfold.
  - destruct (stripPrefix pat []) as [rest|] eqn:Hs; [|done].
    apply stripPrefix_Some in Hs. destruct Hno. by exists [], rest.
  - destruct (stripPrefix pat (c :: s)) as [rest|] eqn:Hs.
    + apply stripPrefix_Some in Hs. destruct Hno. by exists [], rest.
    + f_equal. apply IH. intros Hocc. by apply Hno, occurs_cons.
Qed.

(** The suffix put after a name is the occurrence that is taken out,
    when the name has none and the suffix cannot overlap itself. *)
Lemma removeFirst_suffix pat : ∀ name,
  noStraddle pat pat → ¬ occurs pat name →
  removeFirst pat (name ++ pat) = name.
Proof.
  induction name as [|c name IH]; intros Hns Hno;
    rewrite removeFirst_unfold.
  - cbn [app]. assert (stripPrefix pat pat = Some []) as ->; [|done].
    apply stripPrefix_Some. by rewrite app_nil_r.
  - destruct (stripPrefix pat ((c :: name) ++ pat)) as [rest|] eqn:Hs.
    + apply stripPrefix_Some in Hs.
      apply app_eq_inv in Hs as [(k & Hk & _)|(k & Hk1 & Hk2)].
      * destruct Hno. by exists [], k.
      * destruct k as [|d k].
        -- rewrite app_nil_r in Hk1. destruct Hno. exists [], [].
           by rewrite app_nil_r.
        -- destruct (Hns (c :: name) (d :: k)); [done..|]. by exists rest.
    + cbn [app]. f_equal. apply IH; [done|].
      intros Hocc. by apply Hno, occurs_cons.
Qed.

Lemma occurs_app pat a b :
  occurs pat (a ++ b) →
  occurs pat a ∨ occurs pat b
  ∨ ∃ u v, u ≠ [] ∧ v ≠ [] ∧ pat = u ++ v ∧ v `prefix_of` b.
Proof.
  intros (pre & post & Heq).
  apply app_eq_inv in Heq as [(k & -> & Hk)|(k & -> & ->)].
  - symmetry in Hk.
    apply app_eq_inv in Hk as [(k' & -> & ->)|(k' & -> & ->)].
    + left. by exists pre, k'.
    + destruct k as [|c k]; [right; left; by exists [], post|].
      destruct k' as [|d k'].
      * left. exists pre, []. by rewrite !app_nil_r.
      * right; right. exists (c :: k), (d :: k').
        repeat split; try done. by exists post.
  - right; left. by exists k, post.
Qed.

(** A pattern that is not in [name], not in [suf] and cannot straddle
    the seam is not in [name ++ suf]. *)
Lemma not_occurs_app pat name suf :
  ¬ occurs pat name → occursb pat suf = false → noStraddleb pat suf = true →
  ¬ occurs pat (name ++ suf).
Proof.
  intros Hname Hsuf Hstr Hocc.
  apply occurs_app in Hocc as [?|[Hocc|(u & v & Hu & Hv & Hpat & Hpre)]].
  - done.
  - apply occursb_complete in Hocc. congruence.
  - by apply (noStraddleb_sound _ _ Hstr u v).
Qed.

Lemma list_ascii_of_string_app (a b : string) :
  list_ascii_of_string (a ++ b)%string
  = list_ascii_of_string a ++ list_ascii_of_string b.
Proof. induction a as [|c a IH]; simpl; [done|by f_equal]. Qed.

Lemma contains_occurs s pat :
  occurs (list_ascii_of_string pat) (list_ascii_of_string s) →
  contains s pat.
Proof.
  intros (pre & post & Heq).
  exists (string_of_list_ascii pre), (string_of_list_ascii post).
  rewrite <- (string_of_list_ascii_of_string s), Heq.
  rewrite <- (string_of_list_ascii_of_string pat) at 2.
  generalize (list_ascii_of_string pat) as l.
  clear. induction pre as [|c pre IH]; intros l; cbn.
  - induction l as [|c l IH]; cbn; [done|by rewrite IH].
  - by rewrite IH.
Qed.

Lemma occurs_contains s pat :
  contains s pat →
  occurs (list_ascii_of_string pat) (list_ascii_of_string s).
Proof.
  intros (pre & post & ->).
  exists (list_ascii_of_string pre), (list_ascii_of_string post).
  by rewrite !list_ascii_of_string_app.
Qed.

(** A search that finds no occurrence shows there is none. *)
Lemma not_contains_by_search s pat :
  occursb (list_ascii_of_string pat) (list_ascii_of_string s) = false →
  ¬ contains s pat.
Proof.
  intros Hb Hc%occurs_contains%occursb_complete. congruence.
Qed.

Lemma replaceFirst_absent pat s :
  ¬ contains s pat → replaceFirst pat s = s.
Proof.
  intros Hno. unfold replaceFirst. rewrite removeFirst_absent.
  - apply string_of_list_ascii_of_string.
  - intros Hocc. by apply Hno, contains_occurs.
Qed.

Lemma replaceFirst_suffix pat name :
  noStraddleb (list_ascii_of_string pat) (list_ascii_of_string pat) = true →
  ¬ contains name pat →
  replaceFirst pat (name ++ pat)%string = name.
Proof.
  intros Hb Hno. unfold replaceFirst.
  rewrite list_ascii_of_string_app, removeFirst_suffix.
  - apply string_of_list_ascii_of_string.
  - by apply noStraddleb_sound.
  - intros Hocc. by apply Hno, contains_occurs.
Qed.

Lemma not_contains_app name suf pat :
  ¬ contains name pat →
  occursb (list_ascii_of_string pat) (list_ascii_of_string suf) = false →
  noStraddleb (list_ascii_of_string pat) (list_ascii_of_string suf) = true →
  ¬ contains (name ++ suf)%string pat.
Proof.
  intros Hname Hsuf Hstr (pre & post & Heq).
  apply (not_occurs_app (list_ascii_of_string pat)
           (list_ascii_of_string name) (list_ascii_of_string suf)).
  - intros Hocc. by apply Hname, contains_occurs.
  - done.
  - done.
  - exists (list_ascii_of_string pre), (list_ascii_of_string post).
    by rewrite <- !list_ascii_of_string_app, Heq.
Qed.

End JsFacts.

(** * Properties of the orphan sweep *)

Section OrphanSweepFacts.
Context `{Platform}.
Import Sidecar.

(** X11. The derivative names the store builds lead back to the source
    name: for an image name that contains none of the derivative
    suffixes, cleanupOrphaned infers exactly that name from its
    thumbnail, its standard preview, its full-size preview and its
    .preview.jpg, so none of them is taken for an orphan while the image
    is listed. *)
Theorem inferred_source_round_trip (name : string) :
  (¬ contains name ".thumb.webp" →
   inferredThumbSource (name ++ ".thumb.webp") = name)
  ∧ (¬ contains name ".standard.jpg" →
     ¬ contains name ".full.jpg" →
     ¬ contains name ".preview.jpg" →
     inferredPreviewSource (name ++ ".standard.jpg") = name
     ∧ inferredPreviewSource (name ++ ".full.jpg") = name
     ∧ inferredPreviewSource (name ++ ".preview.jpg") = name).
Proof.
  split.
  - intros Hno. unfold inferredThumbSource. by apply replaceFirst_suffix.
  - intros Hs Hf Hp. unfold inferredPreviewSource. repeat split.
    + rewrite (replaceFirst_suffix ".standard.jpg") by done.
      rewrite (replaceFirst_absent ".full.jpg") by done.
      by apply replaceFirst_absent.
    + rewrite (replaceFirst_absent ".standard.jpg")
        by (by apply not_contains_app).
      rewrite (replaceFirst_suffix ".full.jpg") by done.
      by apply replaceFirst_absent.
    + rewrite (replaceFirst_absent ".standard.jpg")
        by (by apply not_contains_app).
      rewrite (replaceFirst_absent ".full.jpg")
        by (by apply not_contains_app).
      by apply replaceFirst_suffix.
Qed.

(** X12. The three replacements are all applied to every preview name,
    so an image whose own name ends in .full.jpg is not recognised: the
    source inferred from its standard preview is the name without
    .full.jpg, and the preview counts as an orphan unless a file of that
    shorter name is listed. *)
Theorem inferred_source_of_suffixed_image (stem : string) :
  ¬ contains stem ".standard.jpg" →
  ¬ contains stem ".full.jpg" →
  ¬ contains stem ".preview.jpg" →
  inferredPreviewSource ((stem ++ ".full.jpg") ++ ".standard.jpg") = stem
  ∧ stem ≠ (stem ++ ".full.jpg")%string
  ∧ ∀ imageFiles,
      stem ∉ imageFiles →
      orphanEntries inferredPreviewSource imageFiles
        [((stem ++ ".full.jpg") ++ ".standard.jpg")%string]
      = [((stem ++ ".full.jpg") ++ ".standard.jpg")%string].
Proof.
  intros Hs Hf Hp.
  assert (Hinf :
    inferredPreviewSource ((stem ++ ".full.jpg") ++ ".standard.jpg") = stem).
  { unfold inferredPreviewSource.
    rewrite (replaceFirst_suffix ".standard.jpg")
      by (done || by apply not_contains_app).
    rewrite (replaceFirst_suffix ".full.jpg") by done.
    by apply replaceFirst_absent. }
  split; [done|]. split.
  - clear. induction stem as [|c stem IH]; simpl; [done|].
    intros [= Heq]. by apply IH.
  - intros imageFiles Hnot. unfold orphanEntries.
    rewrite filter_cons, Hinf. by rewrite decide_True.
Qed.

Lemma removeOrphans_spec dir infer imageFiles entries : ∀ n fs,
  removeOrphans dir infer imageFiles entries n fs
  = (Ok (n + Z.of_nat (length (orphanEntries infer imageFiles entries))),
     mkFs (foldl (λ acc entry, delete (path_join dir entry) acc) (files fs)
                 (orphanEntries infer imageFiles entries))
          (journal fs
           ++ ((λ entry, EvRemove (path_join dir entry))
               <$> orphanEntries infer imageFiles entries))).
Proof.
  unfold orphanEntries.
  induction entries as [|entry rest IH]; intros n fs; cbn [removeOrphans].
  - cbn. rewrite Z.add_0_r, app_nil_r. by destruct fs.
  - rewrite filter_cons.
    destruct (decide (infer entry ∈ imageFiles)) as [Hin|Hout].
    + rewrite decide_False by (by intros ?). apply IH.
    + rewrite decide_True by done.
      unfold mbind, Io_bind, io_bind, Fs.remove. rewrite IH. cbn.
      rewrite <- app_assoc. cbn. f_equal. f_equal. lia.
Qed.

Lemma lookup_foldl_delete (dir : string) (entries : list string) :
  ∀ (tbl : gmap string File) p,
    foldl (λ acc entry, delete (path_join dir entry) acc) tbl entries !! p
    = if decide (p ∈ path_join dir <$> entries) then None else tbl !! p.
Proof.
  induction entries as [|entry rest IH]; intros tbl p; cbn.
  - by rewrite decide_False by apply not_elem_of_nil.
  - rewrite IH. destruct (decide (p ∈ path_join dir <$> rest)) as [Hin|Hout].
    + by rewrite decide_True by (by right).
    + destruct (decide (p = path_join dir entry)) as [->|Hne].
      * rewrite decide_True by (by left). apply lookup_delete_eq.
      * rewrite decide_False by (by intros [?|?]%elem_of_cons).
        by apply lookup_delete_ne.
Qed.

(** X13. cleanupOrphaned returns the number of files it removes; it
    removes exactly the listed thumbnails and previews whose inferred
    source name is not in the folder listing, in listing order, and every
    other path holds afterwards what it held before. *)
Theorem cleanupOrphaned_removes_only_orphans
    imageFiles thumbFiles previewFiles m fs :
  let lostThumbs :=
    path_join (thumbnails (paths m))
    <$> orphanEntries inferredThumbSource imageFiles thumbFiles in
  let lostPreviews :=
    path_join (previews (paths m))
    <$> orphanEntries inferredPreviewSource imageFiles previewFiles in
  let '(r, fs') :=
    cleanupOrphaned imageFiles thumbFiles previewFiles m fs in
  r = Ok (Z.of_nat (length (lostThumbs ++ lostPreviews)))
  ∧ journal fs' = journal fs ++ (EvRemove <$> (lostThumbs ++ lostPreviews))
  ∧ ∀ p, files fs' !! p
         = if decide (p ∈ lostThumbs ++ lostPreviews)
           then None else files fs !! p.
Proof.
  intros lostThumbs lostPreviews. unfold cleanupOrphaned.
  unfold mbind, Io_bind, io_bind. rewrite !removeOrphans_spec. cbn.
  split; [|split].
  - f_equal. subst lostThumbs lostPreviews.
    rewrite length_app, !length_fmap. lia.
  - subst lostThumbs lostPreviews.
    by rewrite <- app_assoc, fmap_app, <- !list_fmap_compose.
  - intros p. rewrite !lookup_foldl_delete. fold lostThumbs lostPreviews.
    destruct (decide (p ∈ lostPreviews)), (decide (p ∈ lostThumbs));
      [rewrite decide_True by (apply elem_of_app; auto)..
      |rewrite decide_False by (by intros [?|?]%elem_of_app)]; done.
Qed.

End OrphanSweepFacts.

(** * Further properties of the Derivative Server *)

Section MoreServerFacts.
Context `{Platform}.
Import ThumbnailServer.

Lemma route_answer srv fs projectId (pathOf : Sidecar.SidecarManager → string)
    (missing : string) :
  let answer :=
    match sidecarManagers srv !! projectId with
    | None => notFound "Project not found"
    | Some manager =>
        if negb (pathExists fs (pathOf manager))
        then notFound missing
        else streamFile fs (pathOf manager)
    end in
  (∀ f, requestedFile srv fs projectId pathOf = Some f → answer = served f)
  ∧ (requestedFile srv fs projectId pathOf = None → status answer = 404).
Proof.
  unfold requestedFile.
  destruct (sidecarManagers srv !! projectId) as [manager|]; cbn; [|done].
  destruct (files fs !! pathOf manager) as [f|] eqn:Hf.
  - assert (pathExists fs (pathOf manager) = true) as ->
      by (apply pathExists_true; eauto).
    split; [|done]. intros ? [= <-]. by apply streamFile_served.
  - apply pathExists_false in Hf as ->. by split.
Qed.

(** X14. The thumb, preview and standard routes each serve exactly the
    file their own tier names and never another tier's: the answer is
    that file's bytes with the image/jpeg and one-year cache headers
    (for the WebP thumbnails too) when it exists, and 404 when it does
    not or when the project has no registered manager. *)
Theorem plain_routes_serve_their_own_tier srv fs projectId filename :
  let thumb := requestedFile srv fs projectId
                 (λ m, Sidecar.getThumbnailPath m filename) in
  let preview := requestedFile srv fs projectId
                   (λ m, Sidecar.getPreviewPath m filename) in
  let standard := requestedFile srv fs projectId
                    (λ m, Sidecar.getStandardPreviewPath m filename) in
  ((∀ f, thumb = Some f → getThumb srv fs projectId filename = served f)
   ∧ (thumb = None → status (getThumb srv fs projectId filename) = 404))
  ∧ ((∀ f, preview = Some f →
        getPreview srv fs projectId filename = served f)
     ∧ (preview = None →
        status (getPreview srv fs projectId filename) = 404))
  ∧ ((∀ f, standard = Some f →
        getStandard srv fs projectId filename = served f)
     ∧ (standard = None →
        status (getStandard srv fs projectId filename) = 404)).
Proof.
  split; [|split].
  - apply (route_answer srv fs projectId
             (λ m, Sidecar.getThumbnailPath m filename)).
  - apply (route_answer srv fs projectId
             (λ m, Sidecar.getPreviewPath m filename)).
  - apply (route_answer srv fs projectId
             (λ m, Sidecar.getStandardPreviewPath m filename)).
Qed.

Lemma tryPort_spec listen srv (k : nat) : ∀ fuel p,
  (∀ j : nat, (j < k)%nat → listen (p + Z.of_nat j) = AddrInUse) →
  (k < fuel)%nat →
  tryPort fuel listen p srv
  = match listen (p + Z.of_nat k) with
    | Listening =>
        Some (Ok (p + Z.of_nat k),
              mkServer (p + Z.of_nat k) (sidecarManagers srv))
    | AddrInUse => tryPort (fuel - S k) listen (p + Z.of_nat k + 1) srv
    | ListenFailed code => Some (Throw code, srv)
    end.
Proof.
  induction k as [|k IH]; intros fuel p Hbusy Hfuel.
  - destruct fuel as [|fuel]; [lia|]. cbn [tryPort].
    rewrite Z.add_0_r, Nat.sub_succ, Nat.sub_0_r. done.
  - destruct fuel as [|fuel]; [lia|]. cbn [tryPort].
    pose proof (Hbusy 0%nat ltac:(lia)) as H0. rewrite Z.add_0_r in H0.
    rewrite H0, (IH fuel (p + 1)).
    + replace (p + 1 + Z.of_nat k) with (p + Z.of_nat (S k)) by lia.
      by rewrite Nat.sub_succ.
    + intros j Hj. rewrite <- (Hbusy (S j)) by lia. f_equal. lia.
    + lia.
Qed.

(** X15. start binds the first port from 45678 upward that is not in
    use: when the [k] ports before it answer EADDRINUSE and it listens,
    the promise resolves to that port and the server's port is set to
    it, with the registry of managers untouched; when it fails with
    another error the promise rejects with that error and the server is
    as before. *)
Theorem start_binds_first_free_port fuel listen srv (k : nat) :
  (∀ j : nat, (j < k)%nat → listen (45678 + Z.of_nat j) = AddrInUse) →
  (k < fuel)%nat →
  (listen (45678 + Z.of_nat k) = Listening →
   start fuel listen srv
   = Some (Ok (45678 + Z.of_nat k),
           mkServer (45678 + Z.of_nat k) (sidecarManagers srv)))
  ∧ (∀ code, listen (45678 + Z.of_nat k) = ListenFailed code →
     start fuel listen srv = Some (Throw code, srv)).
Proof.
  intros Hbusy Hfuel. unfold start.
  rewrite (tryPort_spec listen srv k fuel 45678 Hbusy Hfuel).
  split; [by intros ->|by intros code ->].
Qed.

End MoreServerFacts.

(** * Properties of the project list *)

Section StoreFacts.
Context `{Platform}.
Import Store.

(** X16. addProject always appends one project, also for a path that is
    already listed; removeProject takes out every project carrying the
    id, so removing the project just added gives the list back exactly
    when no listed project had that id, which is the clock reading of
    the call. *)
Theorem removeProject_after_addProject now projectPath st :
  let '(p, st') := addProject now projectPath st in
  id p = ("proj-" ++ pretty now)%string
  ∧ projects st' = projects st ++ [p]
  ∧ (∀ q, q ∈ projects (removeProject (id p) st') → id q ≠ id p)
  ∧ (Forall (λ q, id q ≠ id p) (projects st) →
     removeProject (id p) st' = st).
Proof.
  unfold addProject, removeProject. cbn.
  split; [done|]. split; [done|]. split.
  - intros q [Hq _]%list_elem_of_filter. done.
  - intros Hfresh. destruct st as [ps]. cbn in *. f_equal.
    rewrite filter_app, filter_cons, decide_False, filter_nil, app_nil_r
      by (by intros ?).
    clear -Hfresh. induction Hfresh as [|q l Hq _ IH]; [done|].
    by rewrite filter_cons, decide_True, IH.
Qed.

End StoreFacts.

(** * Further properties of the main process *)

Section PathFacts.
Import Main.

Lemma sanitizeChar_idem c : sanitizeChar (sanitizeChar c) = sanitizeChar c.
Proof.
  unfold sanitizeChar.
  destruct (decide (c = "\"%char ∨ c = "/"%char ∨ c = ":"%char)) as [Hc|Hc].
  - rewrite !(bool_decide_eq_true_2 _ Hc).
    rewrite bool_decide_eq_false_2; [done|]. by intros [?|[?|?]].
  - by rewrite !(bool_decide_eq_false_2 _ Hc).
Qed.

Lemma sanitizeChar_clean c :
  sanitizeChar c ≠ "\"%char ∧ sanitizeChar c ≠ "/"%char
  ∧ sanitizeChar c ≠ ":"%char.
Proof.
  unfold sanitizeChar. case_bool_decide as Hc; [done|].
  repeat split; intros ->; apply Hc; auto.
Qed.

Lemma projectIdOf_app p q :
  projectIdOf (p ++ q) = (projectIdOf p ++ projectIdOf q)%string.
Proof. induction p as [|c p IH]; simpl; [done|by rewrite IH]. Qed.

(** X17. The project id has the length of the path and holds no
    backslash, slash or colon; deriving it is idempotent and goes
    character by character, so that two paths differing only in a
    separator against an underscore get the same id. *)
Theorem projectIdOf_sanitizes p :
  String.length (projectIdOf p) = String.length p
  ∧ projectIdOf (projectIdOf p) = projectIdOf p
  ∧ (∀ c, c ∈ list_ascii_of_string (projectIdOf p) →
          c ≠ "\"%char ∧ c ≠ "/"%char ∧ c ≠ ":"%char)
  ∧ (∀ q, projectIdOf (p ++ String "/" q)
          = projectIdOf (p ++ String "_" q)).
Proof.
  split; [|split; [|split]].
  - induction p as [|c p IH]; cbn; [done|by rewrite IH].
  - induction p as [|c p IH]; cbn; [done|].
    by rewrite sanitizeChar_idem, IH.
  - induction p as [|c p IH]; cbn; intros a Ha.
    + by apply elem_of_nil in Ha.
    + apply elem_of_cons in Ha as [->|Ha]; [apply sanitizeChar_clean|eauto].
  - intros q. by rewrite !projectIdOf_app.
Qed.








End PathFacts.

Section MoreEngineFacts.
Context `{Platform}.
Import Main.

Lemma elem_of_distinct (names : list string) x :
  x ∈ distinct names ↔ x ∈ names.
Proof.
  induction names as [|n rest IH]; cbn; [done|].
  rewrite !elem_of_cons, list_elem_of_filter, IH.
  destruct (decide (x = n)); tauto.
Qed.


Lemma filter_none {A} (P : A → Prop) `{∀ x, Decision (P x)} (l : list A) :
  (∀ x, x ∈ l → ¬ P x) → filter P l = [].
Proof.
  induction l as [|a l IH]; intros Hall; [done|].
  rewrite filter_cons, decide_False by (apply Hall; by left).
  apply IH. intros x Hx. apply Hall. by right.
Qed.



(** X20. A folder whose image files are exactly the cached names makes
    the background diff a no-op: nothing is processed, sent, written or
    deleted.  The diff compares names only, so a file changed on disk
    under its old name is not looked at again. *)
Theorem backgroundDiff_same_names_is_noop
    now files folderPath projectId mgr cachedImages w :
  let imageFiles := filter (λ f, isImageFile f = true) files in
  (∀ f, f ∈ imageFiles ↔ f ∈ d_name <$> cachedImages) →
  backgroundDiff now files folderPath projectId mgr cachedImages w = w.
Proof.
  intros imageFiles Hsame. unfold backgroundDiff. fold imageFiles.
  rewrite (filter_none (λ f, f ∉ d_name <$> cachedImages) imageFiles)
    by (intros f Hf Hn; exact (Hn (proj1 (Hsame f) Hf))).
  rewrite (filter_none (λ name, name ∉ imageFiles)).
  - done.
  - intros n Hn Hout.
    exact (Hout (proj2 (Hsame n) (proj1 (elem_of_distinct _ n) Hn))).
Qed.

(** X21. start-watching on a folder whose project id already has a
    sidecar manager reuses that manager, which may have been created for
    another folder with the same id: nothing is initialised on disk, no
    manager is registered, and the watcher and the queued diff work with
    the old manager. *)
Theorem startWatching_reuses_manager now folderPath w m :
  sidecarManagers w !! projectIdOf folderPath = Some m →
  let '(cached, w') := startWatching now folderPath w in
  fs w' = fs w
  ∧ sidecarManagers w' = sidecarManagers w
  ∧ thumbnailServer w' = thumbnailServer w
  ∧ watcher w'
    = Some (mkWatcher folderPath (projectIdOf folderPath) m)
  ∧ immediates w'
    = immediates w
      ++ [BackgroundDiff folderPath (projectIdOf folderPath) m cached].
Proof.
  intros Hm. unfold startWatching. cbn. rewrite Hm. cbn. done.
Qed.

Lemma with_fs_same w : with_fs (fs w) w = w.
Proof. by destruct w. Qed.

Lemma prepareImage_missing now fullPath fileName projectId mgr url disk :
  files disk !! fullPath = None →
  ∃ e, prepareImage now fullPath fileName projectId mgr url disk
       = (Throw e, disk).
Proof.
  intros Hsrc. unfold prepareImage, Sidecar.generateThumbnail,
    Sidecar.upToDate, sharp_to_file.
  unfold mbind, Io_bind, io_bind, mret, Io_ret, io_ret,
    Fs.pathExists, Fs.stat, Fs.readFile.
  destruct (bool_decide _); cbn; rewrite Hsrc; cbn; eauto.
Qed.

(** X22. For a file that is not on disk (deleted between the event and
    the processing, say) processImageWithSidecar returns the fallback
    record with file:// URLs, zero dimensions, rating 0 and the
    processing time as date, and changes nothing: no derivative is
    written, no row is stored, no preview generation is queued. *)
Theorem processImageWithSidecar_missing_source
    now folderPath fileName projectId mgr w :
  files (fs w) !! path_join folderPath fileName = None →
  processImageWithSidecar now folderPath fileName projectId mgr w
  = (fallbackRecord now (path_join folderPath fileName) fileName, w).
Proof.
  intros Hsrc. unfold processImageWithSidecar.
  destruct (prepareImage_missing now (path_join folderPath fileName)
              fileName projectId mgr
              (ThumbnailServer.getUrl (thumbnailServer w)) (fs w) Hsrc)
    as [e ->].
  by rewrite with_fs_same.
Qed.

(** X23. The watcher's add handler ignores files without an image
    extension, and for an image file sends exactly one 'file-added'
    message carrying the file's base name, after everything sent
    before. *)
Theorem onAdd_sends_one_record_per_image now filePath w wt :
  watcher w = Some wt →
  (isImageFile (path_basename filePath) = false →
   onAdd now filePath w = w)
  ∧ (isImageFile (path_basename filePath) = true →
     ∃ rec,
       d_name rec = path_basename filePath
       ∧ mainWindow (onAdd now filePath w)
         = (λ sent, sent ++ [FileAdded rec]) <$> mainWindow w).
Proof.
  intros Hw. unfold onAdd. rewrite Hw. split; intros ->; [done|].
  pose proof (processImageWithSidecar_spec now (w_folderPath wt)
                (path_basename filePath) (w_projectId wt)
                (w_sidecarManager wt) w) as Hone.
  destruct (processImageWithSidecar _ _ _ _ _ _) as [rec w1].
  destruct Hone as (Hname & Hwin & _).
  exists rec. split; [done|]. cbn. by rewrite Hwin.
Qed.

Lemma generate_frame t now m imagePath imageName disk p :
  p ≠ Sidecar.derivativePath t m imageName →
  files (Sidecar.generate t now m imagePath imageName disk).2 !! p
  = files disk !! p.
Proof.
  intros Hp.
  pose proof (generate_cases t now m imagePath imageName disk) as Hc.
  cbv zeta in *. destruct (Sidecar.generate _ _ _ _ _ _) as [r disk']. cbn.
  destruct Hc as [[-> _]|(data & -> & _)]; [done|].
  cbn. by rewrite lookup_insert_ne.
Qed.

Lemma generateThumbnail_state now m imagePath imageName disk :
  (Sidecar.generateThumbnail now m imagePath imageName disk).2
  = (Sidecar.generate Sidecar.Thumbnail now m imagePath imageName disk).2.
Proof.
  unfold Sidecar.generate, mbind, Io_bind, io_bind, mret, Io_ret, io_ret.
  by destruct (Sidecar.generateThumbnail _ _ _ _ _) as [[?|?] ?].
Qed.

Lemma generateStandardPreview_state now m imagePath imageName disk :
  (Sidecar.generateStandardPreview now m imagePath imageName disk).2
  = (Sidecar.generate Sidecar.StandardPreview now m imagePath imageName
       disk).2.
Proof.
  unfold Sidecar.generate, mbind, Io_bind, io_bind, mret, Io_ret, io_ret.
  by destruct (Sidecar.generateStandardPreview _ _ _ _ _) as [[?|?] ?].
Qed.

Lemma prepareImage_disk now fullPath fileName projectId mgr url disk :
  (prepareImage now fullPath fileName projectId mgr url disk).2
  = (Sidecar.generateThumbnail now mgr fullPath fileName disk).2.
Proof.
  unfold prepareImage. unfold mbind at 1. unfold Io_bind, io_bind.
  destruct (Sidecar.generateThumbnail _ _ _ _ _) as [[p|e] disk1]; [|done].
  unfold sharp_read_metadata, Sidecar.loadMetadata.
  unfold mbind, Io_bind, io_bind, mret, Io_ret, io_ret, io_throw,
    Fs.pathExists, Fs.stat, Fs.readFile.
  cbn. repeat case_match; simplify_eq; done.
Qed.

Lemma processImageWithSidecar_frame
    now folderPath fileName projectId mgr w p :
  p ≠ Sidecar.getThumbnailPath mgr fileName →
  let w1 := (processImageWithSidecar now folderPath fileName projectId
               mgr w).2 in
  files (fs w1) !! p = files (fs w) !! p
  ∧ thumbnailServer w1 = thumbnailServer w.
Proof.
  intros Hp. unfold processImageWithSidecar.
  pose proof (prepareImage_disk now (path_join folderPath fileName)
                fileName projectId mgr
                (ThumbnailServer.getUrl (thumbnailServer w)) (fs w))
    as Hdisk.
  destruct (prepareImage _ _ _ _ _ _ _) as [[[d r]|e] disk1];
    cbn in Hdisk; cbn; rewrite Hdisk, generateThumbnail_state;
    (split; [by apply generate_frame|done]).
Qed.

Lemma generatePreviews_frame now mgr fullPath fileName w p :
  p ≠ Sidecar.getStandardPreviewPath mgr fileName →
  p ≠ Sidecar.getFullSizePreviewPath mgr fileName →
  let w2 := generatePreviews now mgr fullPath fileName w in
  files (fs w2) !! p = files (fs w) !! p
  ∧ thumbnailServer w2 = thumbnailServer w.
Proof.
  intros Hstd Hfull. unfold generatePreviews. cbn. split; [|done].
  unfold mbind, Io_bind, io_bind.
  pose proof (generateStandardPreview_state now mgr fullPath fileName (fs w))
    as Hstate.
  destruct (Sidecar.generateStandardPreview _ _ _ _ _) as [[q|e] disk2];
    cbn [snd] in Hstate; rewrite Hstate.
  - change (Sidecar.generateFullSizePreview now mgr fullPath fileName)
      with (Sidecar.generate Sidecar.FullPreview now mgr fullPath fileName).
    by rewrite !generate_frame.
  - cbn [snd]. by rewrite generate_frame.
Qed.

(** X24. No generator writes the file the /preview route serves: when
    that file is absent and its path is none of the three derivative
    paths, it is still absent after an image went through
    processImageWithSidecar and the queued preview generation, so the
    /preview route answers 404 for the image, while the record of a
    processed image carries the /preview address as its url. *)
Theorem preview_route_is_never_filled
    now now' folderPath fileName projectId mgr w :
  let previewPath := Sidecar.getPreviewPath mgr fileName in
  files (fs w) !! previewPath = None →
  (∀ t, Sidecar.derivativePath t mgr fileName ≠ previewPath) →
  ThumbnailServer.sidecarManagers (thumbnailServer w) !! projectId
  = Some mgr →
  let '(rec, w1) :=
    processImageWithSidecar now folderPath fileName projectId mgr w in
  let w2 := generatePreviews now' mgr (path_join folderPath fileName)
              fileName w1 in
  (degraded rec = false →
   d_url rec = tierUrl (ThumbnailServer.getUrl (thumbnailServer w))
                 "preview" projectId fileName)
  ∧ files (fs w2) !! previewPath = None
  ∧ ThumbnailServer.status
      (ThumbnailServer.getPreview (thumbnailServer w2) (fs w2)
         projectId fileName) = 404.
Proof.
  intros previewPath Habsent Hother Hmgr.
  pose proof (processImageWithSidecar_frame now folderPath fileName
                projectId mgr w previewPath
                (λ Heq, Hother Sidecar.Thumbnail (eq_sym Heq)))
    as [Hfiles1 Hsrv1].
  assert (Hurl :
    degraded (processImageWithSidecar now folderPath fileName projectId
                mgr w).1 = false →
    d_url (processImageWithSidecar now folderPath fileName projectId
             mgr w).1
    = tierUrl (ThumbnailServer.getUrl (thumbnailServer w))
        "preview" projectId fileName).
  { unfold processImageWithSidecar.
    destruct (prepareImage _ _ _ _ _ _ _) as [[[d r]|e] disk1] eqn:Hprep;
      cbn; [|done].
    intros _. unfold prepareImage in Hprep.
    unfold mbind, Io_bind, io_bind, mret, Io_ret, io_ret in Hprep.
    repeat case_match; simplify_eq; done. }
  destruct (processImageWithSidecar _ _ _ _ _ _) as [rec w1].
  cbn in Hfiles1, Hsrv1, Hurl.
  pose proof (generatePreviews_frame now' mgr
                (path_join folderPath fileName) fileName w1 previewPath
                (λ Heq, Hother Sidecar.StandardPreview (eq_sym Heq))
                (λ Heq, Hother Sidecar.FullPreview (eq_sym Heq)))
    as [Hfiles2 Hsrv2].
  cbv zeta in *.
  assert (Hgone :
    files (fs (generatePreviews now' mgr (path_join folderPath fileName)
                 fileName w1)) !! previewPath = None)
    by (by rewrite Hfiles2, Hfiles1).
  split; [done|]. split; [done|].
  unfold ThumbnailServer.getPreview. rewrite Hsrv2, Hsrv1, Hmgr.
  fold previewPath. apply pathExists_false in Hgone as ->. done.
Qed.

End MoreEngineFacts.

(** * Properties of the renderer *)

Section RendererFacts.
Import Main Renderer.

Lemma known_name (prev : list DisplayRecord) name :
  existsb (λ p, String.eqb (d_name p) name) prev = true
  ↔ name ∈ d_name <$> prev.
Proof.
  rewrite existsb_exists, list_elem_of_fmap. split.
  - intros (q & Hq & Heq%String.eqb_eq). exists q.
    by rewrite list_elem_of_In.
  - intros (q & -> & Hq). exists q.
    by rewrite <- list_elem_of_In, String.eqb_eq.
Qed.

Lemma onFileAdded_known prev p :
  d_name p ∈ d_name <$> prev → onFileAdded prev p = prev.
Proof. intros Hin%known_name. unfold onFileAdded. by rewrite Hin. Qed.

Lemma onFileAdded_new prev p :
  d_name p ∉ d_name <$> prev → onFileAdded prev p = prev ++ [p].
Proof.
  intros Hout. unfold onFileAdded.
  destruct (existsb _ prev) eqn:Hex; [|done].
  by apply known_name in Hex.
Qed.

(** X25. The 'file-added' listener keeps the photo names of the list
    distinct: a record whose name is already listed is dropped and the
    listed record stays (so hearing of a file twice changes nothing),
    any other record is appended at the end. *)
Theorem onFileAdded_keeps_names_unique prev p :
  NoDup (d_name <$> prev) →
  NoDup (d_name <$> onFileAdded prev p)
  ∧ d_name p ∈ d_name <$> onFileAdded prev p
  ∧ prev `prefix_of` onFileAdded prev p
  ∧ (d_name p ∈ d_name <$> prev → onFileAdded prev p = prev)
  ∧ onFileAdded (onFileAdded prev p) p = onFileAdded prev p.
Proof.
  intros Hnd.
  destruct (decide (d_name p ∈ d_name <$> prev)) as [Hin|Hout].
  - rewrite !onFileAdded_known by (by rewrite ?onFileAdded_known).
    by repeat split.
  - assert (Hnow : d_name p ∈ d_name <$> prev ++ [p])
      by (rewrite fmap_app, elem_of_app; right; by left).
    rewrite (onFileAdded_known (onFileAdded prev p))
      by (by rewrite onFileAdded_new).
    rewrite onFileAdded_new by done.
    split; [|split; [done|split; [by apply prefix_app_r|done]]].
    rewrite fmap_app. apply NoDup_app. split; [done|]. split.
    + intros x Hx [->|[]%elem_of_nil]%elem_of_cons. done.
    + apply NoDup_singleton.
Qed.

Lemma receive_added recs : ∀ prev,
  NoDup (d_name <$> recs) →
  (∀ r, r ∈ recs → d_name r ∉ d_name <$> prev) →
  foldl receive prev (FileAdded <$> recs) = prev ++ recs.
Proof.
  induction recs as [|r recs IH]; intros prev Hnd Hnew.
  - by rewrite app_nil_r.
  - cbn. rewrite onFileAdded_new by (apply Hnew; by left).
    rewrite fmap_cons in Hnd. apply NoDup_cons in Hnd as [Hr Hnd].
    rewrite IH, <- app_assoc; [done|done|].
    intros q Hq. rewrite fmap_app, elem_of_app. intros [Hp|Hhere].
    + by apply (Hnew q); [right|].
    + apply elem_of_cons in Hhere as [Heq|[]%elem_of_nil].
      apply Hr. rewrite <- Heq. by apply list_elem_of_fmap_2.
Qed.

Lemma receive_removed projectId names : ∀ prev,
  foldl receive prev ((λ n, FileRemoved n projectId) <$> names)
  = filter (λ p, d_name p ∉ names) prev.
Proof.
  induction names as [|n names IH]; intros prev.
  - cbn. induction prev as [|q prev IHp]; [done|].
    rewrite filter_cons, decide_True by apply not_elem_of_nil.
    by rewrite <- IHp.
  - cbn. rewrite IH. unfold onFileRemoved. rewrite list_filter_filter.
    apply list_filter_iff. intros q. rewrite elem_of_cons. tauto.
Qed.

(** X26. Replaying the diff's messages in the renderer: a run of
    'file-added' records with distinct names, none of them listed,
    appends exactly these records in order; the 'file-removed' messages
    for the same names then give the previous list back, whatever
    project id the messages carry. *)
Theorem receive_replays_the_diff prev recs projectId :
  NoDup (d_name <$> recs) →
  (∀ r, r ∈ recs → d_name r ∉ d_name <$> prev) →
  foldl receive prev (FileAdded <$> recs) = prev ++ recs
  ∧ foldl receive (prev ++ recs)
      ((λ r, FileRemoved (d_name r) projectId) <$> recs) = prev.
Proof.
  intros Hnd Hnew. split; [by apply receive_added|].
  rewrite (list_fmap_compose d_name (λ n, FileRemoved n projectId)).
  rewrite receive_removed, filter_app.
  rewrite (filter_none _ recs), app_nil_r.
  - clear Hnd. induction prev as [|q prev IH]; [done|].
    rewrite filter_cons, decide_True.
    + f_equal. apply IH. intros r Hr Hin. apply (Hnew r Hr).
      rewrite fmap_cons. by right.
    + intros (r & Heq & Hr)%list_elem_of_fmap. apply (Hnew r Hr).
      rewrite fmap_cons, <- Heq. by left.
  - intros r Hr Hout. apply Hout. by apply list_elem_of_fmap_2.
Qed.

Lemma findIndex_found {A} (pred : A → bool) (l : list A) : ∀ i x,
  l !! i = Some x → pred x = true →
  (∀ j y, (j < i)%nat → l !! j = Some y → pred y = false) →
  Js.findIndex pred l = Z.of_nat i.
Proof.
  induction l as [|a l IH]; intros i x Hi Hx Hbefore; [done|].
  destruct i as [|i]; cbn in *.
  - simplify_eq. by rewrite Hx.
  - rewrite (Hbefore 0%nat a) by (done || lia).
    rewrite (IH i x Hi Hx).
    + destruct (Z.ltb_spec (Z.of_nat i) 0); lia.
    + intros j y Hj Hy. apply (Hbefore (S j) y); [lia|done].
Qed.

Lemma findIndex_none {A} (pred : A → bool) (l : list A) :
  (∀ y, y ∈ l → pred y = false) → Js.findIndex pred l = -1.
Proof.
  induction l as [|a l IH]; intros Hall; [done|]. cbn.
  rewrite (Hall a) by (by left).
  rewrite IH by (intros y Hy; apply Hall; by right). done.
Qed.

Lemma currentIndexOf_listed (photos : list DisplayRecord) i p :
  NoDup (d_id <$> photos) → photos !! i = Some p →
  currentIndexOf photos p = Z.of_nat i.
Proof.
  intros Hnd Hi. unfold currentIndexOf.
  apply (findIndex_found _ photos i p Hi); [by apply String.eqb_eq|].
  intros j y Hj Hy. apply String.eqb_neq. intros Heq.
  assert (j = i); [|lia].
  apply (NoDup_lookup (d_id <$> photos) j i (d_id p)); [done|..].
  - by rewrite list_lookup_fmap, Hy, <- Heq.
  - by rewrite list_lookup_fmap, Hi.
Qed.

(** X27. With distinct photo ids and the selected photo at position i
    of the list, ArrowRight selects the photo at i+1 and stays on the
    last one, ArrowLeft selects the photo at i-1 and stays on the first
    one; so going right and then left, when there is a next photo, comes
    back to the selected photo. *)
Theorem arrow_keys_step (photos : list DisplayRecord) i p :
  NoDup (d_id <$> photos) → photos !! i = Some p →
  arrowRight photos p = default p (photos !! S i)
  ∧ arrowLeft photos p
    = match i with O => p | S j => default p (photos !! j) end
  ∧ (is_Some (photos !! S i) →
     arrowLeft photos (arrowRight photos p) = p).
Proof.
  intros Hnd Hi.
  assert (Hright : arrowRight photos p = default p (photos !! S i)).
  { unfold arrowRight. rewrite (currentIndexOf_listed photos i p) by done.
    destruct (Z.ltb_spec (Z.of_nat i) (Z.of_nat (length photos) - 1)).
    - by replace (Z.to_nat (Z.of_nat i + 1)) with (S i) by lia.
    - rewrite lookup_ge_None_2; [done|lia]. }
  assert (Hleft : ∀ k q, photos !! k = Some q →
    arrowLeft photos q
    = match k with O => q | S j => default q (photos !! j) end).
  { intros k q Hk. unfold arrowLeft.
    rewrite (currentIndexOf_listed photos k q) by done.
    destruct k as [|k]; [done|].
    destruct (Z.ltb_spec 0 (Z.of_nat (S k))); [|lia].
    by replace (Z.to_nat (Z.of_nat (S k) - 1)) with k by lia. }
  split; [done|]. split; [by apply Hleft|].
  intros [q Hq]. rewrite Hright, Hq. cbn.
  rewrite (Hleft (S i) q Hq), Hi. done.
Qed.

(** X28. When the selected photo is not in the list (by id; it was
    removed while the editor was open, say), ArrowLeft keeps the
    selection and ArrowRight jumps to the first photo of the list, if
    there is one. *)
Theorem arrow_keys_from_unlisted_photo (photos : list DisplayRecord) p :
  d_id p ∉ d_id <$> photos →
  arrowLeft photos p = p
  ∧ arrowRight photos p = default p (head photos).
Proof.
  intros Hout.
  assert (Hidx : currentIndexOf photos p = -1).
  { apply findIndex_none. intros y Hy. apply String.eqb_neq.
    intros Heq. apply Hout. rewrite <- Heq. by apply list_elem_of_fmap_2. }
  unfold arrowLeft, arrowRight. rewrite Hidx. split; [done|].
  destruct photos as [|q photos]; [done|]. cbn [length head default].
  destruct (Z.ltb_spec (-1) (Z.of_nat (S (length photos)) - 1)); [|lia].
  done.
Qed.

End RendererFacts.

(** * The further properties on the example data *)

Module MoreExamples.
Import Demo Fixtures.

#[local] Existing Instance platform.
#[local] Existing Instance writer.

Lemma writes_keep_rows_witness :
  ∃ row',
    Database.images
      (applyWrites [WriteOne newerRescan; WriteBatch [staleRescan]] ratedDb)
      !! "/p/photo.jpg" = Some row'
    ∧ sameIdentity ratedPhoto row'
    ∧ Database.modified_at ratedPhoto ≤ Database.modified_at row'.
Proof.
  apply (writes_keep_rows [WriteOne newerRescan; WriteBatch [staleRescan]]
           ratedDb "/p/photo.jpg" ratedPhoto).
  reflexivity.
Defined.



Lemma upsertProject_keeps_paths_unique_witness :
  projectsConsistent (Database.upsertProject 50 "_q" "p" "/p" sizedDb)
  ∧ Database.projects (Database.upsertProject 50 "_q" "p" "/p" sizedDb)
      !! "_p" = None.
Proof.
  assert (Hcons : projectsConsistent sizedDb).
  { unfold projectsConsistent, sizedDb. cbn [Database.projects]. split.
    - intros k row [<- <-]%lookup_singleton_Some. reflexivity.
    - intros k1 k2 row1 row2 [<- _]%lookup_singleton_Some
        [<- _]%lookup_singleton_Some _. reflexivity. }
  destruct (upsertProject_keeps_paths_unique 50 "_q" "p" "/p" sizedDb Hcons)
    as [Hkept Hother].
  split; [exact Hkept|].
  apply (Hother "_p" (Database.mkProject "_p" "p" "/p" 7 8 4096)).
  - discriminate.
  - reflexivity.
Defined.

Lemma generate_touches_only_its_derivative_witness :
  let fs' := (Sidecar.generate Sidecar.Thumbnail 200 manager "/p/big.jpg"
                "big.jpg" disk).2 in
  files fs' !! "/p/big.jpg" = files disk !! "/p/big.jpg"
  ∧ journal disk `prefix_of` journal fs'.
Proof.
  apply (generate_touches_only_its_derivative Sidecar.Thumbnail 200 manager
           "/p/big.jpg" "big.jpg" disk "/p/big.jpg").
  vm_compute. discriminate.
Defined.

Lemma generate_leaves_valid_derivative_witness :
  "/p/.capture-open/previews/big.jpg.full.jpg"
  = Sidecar.derivativePath Sidecar.FullPreview manager "big.jpg"
  ∧ fresh generatedOnce "/p/.capture-open/previews/big.jpg.full.jpg"
          "/p/big.jpg".
Proof.
  apply (generate_leaves_valid_derivative Sidecar.FullPreview 200 manager
           "/p/big.jpg" "big.jpg" disk
           "/p/.capture-open/previews/big.jpg.full.jpg" generatedOnce).
  - reflexivity.
  - discriminate.
  - intros src Hsrc. vm_compute in Hsrc. injection Hsrc as <-. cbn. lia.
Defined.


Lemma inferred_source_of_suffixed_image_witness :
  Sidecar.inferredPreviewSource "photo.full.jpg.standard.jpg" = "photo"
  ∧ "photo" ≠ "photo.full.jpg".
Proof.
  destruct (inferred_source_of_suffixed_image "photo")
    as (Hinfer & Hne & _).
  - apply not_contains_by_search. reflexivity.
  - apply not_contains_by_search. reflexivity.
  - apply not_contains_by_search. reflexivity.
  - split; [exact Hinfer|exact Hne].
Defined.

Lemma start_binds_first_free_port_witness :
  ThumbnailServer.start 10 busyListen server
  = Some (Ok 45680, ThumbnailServer.mkServer 45680 {[ "_p" := manager ]}).
Proof.
  destruct (start_binds_first_free_port 10 busyListen server 2)
    as [Hbound _].
  - intros j Hj. destruct j as [|[|j]]; [reflexivity|reflexivity|lia].
  - lia.
  - apply Hbound. reflexivity.
Defined.


Lemma backgroundDiff_same_names_is_noop_witness :
  Main.backgroundDiff 300 ["photo.jpg"; "notes.txt"] "/p" "_p" manager
    (Main.cachedImagesOf "http://localhost:45678" "_p" ratedDb) cachedWorld
  = cachedWorld.
Proof.
  apply (backgroundDiff_same_names_is_noop 300 ["photo.jpg"; "notes.txt"]
           "/p" "_p" manager
           (Main.cachedImagesOf "http://localhost:45678" "_p" ratedDb)
           cachedWorld).
  intros f. change (f ∈ ["photo.jpg"] ↔ f ∈ ["photo.jpg"]). reflexivity.
Defined.

Lemma startWatching_reuses_manager_witness :
  let '(cached, w') := Main.startWatching 300 ":p" servedWorld in
  Main.fs w' = Main.fs servedWorld
  ∧ Main.sidecarManagers w' = Main.sidecarManagers servedWorld
  ∧ Main.thumbnailServer w' = Main.thumbnailServer servedWorld
  ∧ Main.watcher w'
    = Some (Main.mkWatcher ":p" (Main.projectIdOf ":p") manager)
  ∧ Main.immediates w'
    = Main.immediates servedWorld
      ++ [Main.BackgroundDiff ":p" (Main.projectIdOf ":p") manager cached].
Proof.
  apply (startWatching_reuses_manager 300 ":p" servedWorld manager).
  reflexivity.
Defined.

Lemma processImageWithSidecar_missing_source_witness :
  Main.processImageWithSidecar 300 "/p" "gone.jpg" "_p" manager world
  = (Main.fallbackRecord 300 (path_join "/p" "gone.jpg") "gone.jpg", world).
Proof.
  apply (processImageWithSidecar_missing_source 300 "/p" "gone.jpg" "_p"
           manager world).
  reflexivity.
Defined.

Lemma onAdd_sends_one_record_per_image_witness :
  Main.onAdd 300 "/p/notes.txt" watchedWorld = watchedWorld
  ∧ ∃ rec,
      Main.d_name rec = path_basename "/p/big.jpg"
      ∧ Main.mainWindow (Main.onAdd 300 "/p/big.jpg" watchedWorld)
        = (λ sent, sent ++ [Main.FileAdded rec])
            <$> Main.mainWindow watchedWorld.
Proof.
  split.
  - apply (onAdd_sends_one_record_per_image 300 "/p/notes.txt" watchedWorld
             (Main.mkWatcher "/p" "_p" manager) eq_refl).
    reflexivity.
  - apply (onAdd_sends_one_record_per_image 300 "/p/big.jpg" watchedWorld
             (Main.mkWatcher "/p" "_p" manager) eq_refl).
    reflexivity.
Defined.

Lemma preview_route_is_never_filled_witness :
  let '(rec, w1) :=
    Main.processImageWithSidecar 300 "/p" "big.jpg" "_p" manager
      servedWorld in
  let w2 := Main.generatePreviews 400 manager (path_join "/p" "big.jpg")
              "big.jpg" w1 in
  (Main.degraded rec = false →
   Main.d_url rec
   = Main.tierUrl (ThumbnailServer.getUrl (Main.thumbnailServer servedWorld))
       "preview" "_p" "big.jpg")
  ∧ files (Main.fs w2) !! Sidecar.getPreviewPath manager "big.jpg" = None
  ∧ ThumbnailServer.status
      (ThumbnailServer.getPreview (Main.thumbnailServer w2) (Main.fs w2)
         "_p" "big.jpg") = 404.
Proof.
  apply (preview_route_is_never_filled 300 400 "/p" "big.jpg" "_p" manager
           servedWorld).
  - reflexivity.
  - intros t. destruct t; vm_compute; discriminate.
  - reflexivity.
Defined.

Lemma onFileAdded_keeps_names_unique_witness :
  NoDup (Main.d_name <$> Renderer.onFileAdded [photoA; photoB] photoA)
  ∧ Main.d_name photoA
    ∈ Main.d_name <$> Renderer.onFileAdded [photoA; photoB] photoA
  ∧ [photoA; photoB] `prefix_of` Renderer.onFileAdded [photoA; photoB] photoA
  ∧ (Main.d_name photoA ∈ Main.d_name <$> [photoA; photoB] →
     Renderer.onFileAdded [photoA; photoB] photoA = [photoA; photoB])
  ∧ Renderer.onFileAdded (Renderer.onFileAdded [photoA; photoB] photoA)
      photoA
    = Renderer.onFileAdded [photoA; photoB] photoA.
Proof.
  apply (onFileAdded_keeps_names_unique [photoA; photoB] photoA).
  apply (bool_decide_unpack _). vm_compute. exact I.
Defined.

Lemma receive_replays_the_diff_witness :
  foldl Renderer.receive [photoA] (Main.FileAdded <$> [photoB])
  = [photoA] ++ [photoB]
  ∧ foldl Renderer.receive ([photoA] ++ [photoB])
      ((λ r, Main.FileRemoved (Main.d_name r) "_other") <$> [photoB])
    = [photoA].
Proof.
  apply (receive_replays_the_diff [photoA] [photoB] "_other").
  - apply (bool_decide_unpack _). vm_compute. exact I.
  - intros r Hr. apply list_elem_of_singleton in Hr as ->.
    apply (bool_decide_unpack _). vm_compute. exact I.
Defined.

Lemma arrow_keys_step_witness :
  Renderer.arrowRight [photoA; photoB] photoA = photoB
  ∧ Renderer.arrowLeft [photoA; photoB] photoA = photoA
  ∧ (is_Some ([photoA; photoB] !! 1%nat) →
     Renderer.arrowLeft [photoA; photoB]
       (Renderer.arrowRight [photoA; photoB] photoA) = photoA).
Proof.
  apply (arrow_keys_step [photoA; photoB] 0 photoA).
  - apply (bool_decide_unpack _). vm_compute. exact I.
  - reflexivity.
Defined.

Lemma arrow_keys_from_unlisted_photo_witness :
  Renderer.arrowLeft [photoA] photoB = photoB
  ∧ Renderer.arrowRight [photoA] photoB = photoA.
Proof.
  apply (arrow_keys_from_unlisted_photo [photoA] photoB).
  apply (bool_decide_unpack _). vm_compute. exact I.
Defined.

End MoreExamples.
